(** * sber_driver: a queue-based character device

    A shallow embedding of [sber_driver.c] and the properties of its
    byte queue, its open/release life cycle and its mode switch.

    Conventions of the embedding.
    - C integers are [Z]; the conversions the C code performs implicitly
      ([int] to [size_t], [size_t] to [ssize_t]) are written out.
    - The intrusive [list_head] queue is the list of the [data] bytes of its
      elements, head first.  [struct queue_device] keeps its [data_size]
      counter as a field of its own, exactly as the C struct does: nothing
      ties it to the length of the list except the code.
    - [file->private_data] is a pointer: either the address of the static
      [default_queue] or a block obtained from [kzalloc].  The kernel state
      carries the static queue and the heap of live blocks.
    - What the kernel may refuse is an oracle argument: whether the i-th
      [kmalloc] of a call succeeds, whether the byte at [buf + i] can be
      copied from or to user space.
    - Behaviour the C code has no defined meaning for (dereferencing a freed
      block, [list_first_entry] on an empty list, [kfree] of a static object,
      [mutex_unlock] of a mutex that is not held) is the outcome [Undefined].
    - The rw-semaphore only orders concurrent callers; the embedding is
      sequential (one call runs to completion before the next), so the
      semaphore does not appear. *)

From Stdlib Require Import ZArith List Lia Bool.
From Stdlib Require Import Strings.String Strings.Byte.
From stdpp Require Import gmap.

Local Open Scope Z_scope.

(** ** Constants *)

Definition QUEUE_SIZE : Z := 1000.
Definition DEFAULT_MODE : Z := 0.
Definition SINGLE_OPEN_MODE : Z := 1.
Definition MULTI_OPEN_MODE : Z := 2.

(** The errno values are the ones of the kernel's [errno-base.h]; the driver
    only names them. *)
Definition ENOMEM : Z := 12.
Definition EFAULT : Z := 14.
Definition EBUSY : Z := 16.
Definition EINVAL : Z := 22.
Definition ENOSPC : Z := 28.

(** ** Integer conversions of the LP64 kernel ABI *)

Definition to_size_t (z : Z) : Z := z mod 2 ^ 64.
Definition to_ssize_t (z : Z) : Z := (z + 2 ^ 63) mod 2 ^ 64 - 2 ^ 63.
Definition to_int (z : Z) : Z := (z + 2 ^ 31) mod 2 ^ 32 - 2 ^ 31.

(** ** Outcomes *)

Inductive outcome (A : Type) : Type :=
| Returns (a : A)
| Undefined.
Arguments Returns {A} a.
Arguments Undefined {A}.

(** Sequencing stops at the first undefined step. *)
#[global] Instance outcome_ret : MRet outcome := @Returns.
#[global] Instance outcome_bind : MBind outcome := fun A B k m =>
  match m with
  | Returns a => k a
  | Undefined => Undefined
  end.

(** ** Data *)

(** [struct queue_device]: the elements linked on [queue] (their [data]
    bytes, head first) and the [data_size] counter. *)
Record queue_device : Type := mk_queue_device {
  queue : list byte;
  data_size : Z
}.

(** [INIT_LIST_HEAD] and [data_size = 0]: the state [queue_init] gives
    [default_queue] and [device_open] gives a freshly allocated queue. *)
Definition empty_queue : queue_device :=
  {| queue := []; data_size := 0 |}.

(** The value of [file->private_data]. *)
Inductive qptr : Type :=
| DefaultQueue              (* &default_queue *)
| Kmem (p : nat).           (* a block returned by kzalloc *)

Record file : Type := mk_file { private_data : qptr }.

(** The driver's globals and the heap of [kzalloc]ed queues. *)
Record kstate : Type := mk_kstate {
  device_mode : Z;
  single_open_lock : bool;                 (* true: the mutex is held *)
  default_queue : queue_device;
  kheap : gmap nat queue_device
}.

(** The state after [queue_init]. *)
Definition init_state : kstate :=
  {| device_mode := DEFAULT_MODE; single_open_lock := false;
     default_queue := empty_queue; kheap := ∅ |}.

Definition set_mode (m : Z) (s : kstate) : kstate :=
  {| device_mode := m; single_open_lock := single_open_lock s;
     default_queue := default_queue s; kheap := kheap s |}.

Definition set_lock (b : bool) (s : kstate) : kstate :=
  {| device_mode := device_mode s; single_open_lock := b;
     default_queue := default_queue s; kheap := kheap s |}.

Definition set_kheap (h : gmap nat queue_device) (s : kstate) : kstate :=
  {| device_mode := device_mode s; single_open_lock := single_open_lock s;
     default_queue := default_queue s; kheap := h |}.

(** Reading through a queue pointer; a freed block has no defined content. *)
Definition deref (s : kstate) (p : qptr) : outcome queue_device :=
  match p with
  | DefaultQueue => Returns (default_queue s)
  | Kmem a => match kheap s !! a with
              | Some q => Returns q
              | None => Undefined
              end
  end.

(** Writing through a queue pointer. *)
Definition store (s : kstate) (p : qptr) (q : queue_device) : kstate :=
  match p with
  | DefaultQueue =>
      {| device_mode := device_mode s; single_open_lock := single_open_lock s;
         default_queue := q; kheap := kheap s |}
  | Kmem a => set_kheap (<[a := q]> (kheap s)) s
  end.

(** ** device_open *)

(** [kzalloc_ok] says whether the allocation of the per-handle queue
    succeeds.  The result is the new state, the return value and the file
    with its [private_data] set (none when the open fails). *)
Definition device_open (kzalloc_ok : bool) (s : kstate)
  : kstate * Z * option file :=
  if (device_mode s =? SINGLE_OPEN_MODE) && single_open_lock s
  then (s, - EBUSY, None)
  else
    let s1 := if device_mode s =? SINGLE_OPEN_MODE then set_lock true s else s in
    if device_mode s1 =? MULTI_OPEN_MODE then
      if kzalloc_ok then
        let a := fresh (dom (kheap s1)) in
        (set_kheap (<[a := empty_queue]> (kheap s1)) s1, 0,
         Some (mk_file (Kmem a)))
      else (s1, - ENOMEM, None)
    else (s1, 0, Some (mk_file DefaultQueue)).

(** ** device_release *)

(** [mutex_unlock]: releasing a mutex that is not held is not allowed. *)
Definition mutex_unlock (s : kstate) : outcome kstate :=
  if single_open_lock s then Returns (set_lock false s) else Undefined.

(** The [list_for_each_entry_safe] loop: every element met is unlinked and
    freed.  The loop does not touch [data_size]. *)
Fixpoint release_loop (l : list byte) : list byte :=
  match l with
  | [] => []
  | _ :: rest => release_loop rest
  end.

(** [kfree(queue_dev)]: defined for a live block only. *)
Definition kfree (s : kstate) (p : qptr) : outcome kstate :=
  match p with
  | DefaultQueue => Undefined
  | Kmem a => match kheap s !! a with
              | Some _ => Returns (set_kheap (delete a (kheap s)) s)
              | None => Undefined
              end
  end.

Definition device_release (s : kstate) (f : file) : outcome (kstate * Z) :=
  s1 ← (if device_mode s =? SINGLE_OPEN_MODE then mutex_unlock s
          else Returns s);
  q ← deref s1 (private_data f);
  let s2 := store s1 (private_data f)
              {| queue := release_loop (queue q); data_size := data_size q |} in
  s3 ← (if device_mode s2 =? MULTI_OPEN_MODE then kfree s2 (private_data f)
          else Returns s2);
  Returns (s3, 0).

(** ** device_write *)

(** The [for] loop of [device_write].  [n] counts the iterations left
    ([count - i]); the result is the queue, [ret] and the final [i]. *)
Fixpoint write_loop (kmalloc_ok : Z -> bool) (buf : Z -> option byte)
    (n : nat) (i : Z) (dev : queue_device) : queue_device * Z * Z :=
  match n with
  | O => (dev, 0, i)
  | S n' =>
      if kmalloc_ok i then
        match buf i with
        | None => (dev, - EFAULT, i)          (* kfree(elem); break *)
        | Some c =>
            write_loop kmalloc_ok buf n' (i + 1)
              {| queue := queue dev ++ [c];                 (* list_add_tail *)
                 data_size := to_int (data_size dev + 1) |}
        end
      else (dev, - ENOMEM, i)
  end.

(** The body of [device_write] on the queue [file->private_data] points to.
    [count] is a [size_t]; in [count + queue_dev->data_size > QUEUE_SIZE]
    the [int] operands are converted to [size_t] and the sum is taken
    modulo 2^64. *)
Definition queue_write (kmalloc_ok : Z -> bool) (buf : Z -> option byte)
    (count : Z) (dev : queue_device) : queue_device * Z :=
  if to_size_t (count + to_size_t (data_size dev)) >? to_size_t QUEUE_SIZE
  then (dev, - ENOSPC)
  else
    let '(dev', ret, i) := write_loop kmalloc_ok buf (Z.to_nat count) 0 dev in
    (dev', if ret =? 0 then to_ssize_t i else ret).

Definition device_write (kmalloc_ok : Z -> bool) (buf : Z -> option byte)
    (count : Z) (s : kstate) (f : file) : outcome (kstate * Z) :=
  q ← deref s (private_data f);
  let '(q', r) := queue_write kmalloc_ok buf count q in
  Returns (store s (private_data f) q', r).

(** ** device_read *)

(** The [for] loop of [device_read].  [to_user_ok i] says whether the byte
    can be copied to [buf + i]; [out] collects the bytes delivered, in the
    order of their offsets.  The loop is entered on [data_size > 0], and
    [list_first_entry] needs a linked element. *)
Fixpoint read_loop (to_user_ok : Z -> bool) (n : nat) (i : Z)
    (dev : queue_device) (out : list byte)
  : outcome (queue_device * Z * Z * list byte) :=
  match n with
  | O => Returns (dev, 0, i, out)
  | S n' =>
      if data_size dev >? 0 then
        match queue dev with
        | [] => Undefined
        | c :: rest =>
            if to_user_ok i then
              read_loop to_user_ok n' (i + 1)
                {| queue := rest;                          (* list_del; kfree *)
                   data_size := to_int (data_size dev - 1) |}
                (out ++ [c])
            else Returns (dev, - EFAULT, i, out)
        end
      else Returns (dev, 0, i, out)
  end.

(** The body of [device_read]: the queue, the return value and the bytes
    that reached the caller's buffer. *)
Definition queue_read (to_user_ok : Z -> bool) (count : Z)
    (dev : queue_device) : outcome (queue_device * Z * list byte) :=
  '(dev', ret, i, out) ← read_loop to_user_ok (Z.to_nat count) 0 dev [];
  Returns (dev', (if ret =? 0 then to_ssize_t i else ret), out).

Definition device_read (to_user_ok : Z -> bool) (count : Z)
    (s : kstate) (f : file) : outcome (kstate * Z * list byte) :=
  q ← deref s (private_data f);
  '(q', r, out) ← queue_read to_user_ok count q;
  Returns (store s (private_data f) q', r, out).

(** ** device_ioctl *)

(** [cmd] is an [unsigned int]. *)
Definition device_ioctl (cmd : Z) (s : kstate) : kstate * Z :=
  if cmd =? 0 then (set_mode DEFAULT_MODE s, 0)
  else if cmd =? 1 then (set_mode SINGLE_OPEN_MODE s, 0)
  else if cmd =? 2 then (set_mode MULTI_OPEN_MODE s, 0)
  else (s, - EINVAL).

(** ** Callers *)

(** A readable user buffer holding [l]: offsets past its end fault. *)
Definition user_buffer (l : list byte) : Z -> option byte :=
  fun i => if i <? 0 then None else l !! Z.to_nat i.

(** Kernel allocations and user copies that never fail. *)
Definition always : Z -> bool := fun _ => true.

(** [write(fd, l, length l)] with nothing failing. *)
Definition write_bytes (l : list byte) (s : kstate) (f : file)
  : outcome (kstate * Z) :=
  device_write always (user_buffer l) (Z.of_nat (length l)) s f.

(** A sequence of writes on one file, with the value each call returns. *)
Fixpoint write_seq (chunks : list (list byte)) (s : kstate) (f : file)
  : outcome (kstate * list Z) :=
  match chunks with
  | [] => Returns (s, [])
  | c :: cs =>
      '(s1, r) ← write_bytes c s f;
      '(s2, rs) ← write_seq cs s1 f;
      Returns (s2, r :: rs)
  end.

(** A sequence of reads on one file, with the value and the bytes each call
    returns. *)
Fixpoint read_seq (to_user_ok : Z -> bool) (counts : list Z) (s : kstate)
    (f : file) : outcome (kstate * list (Z * list byte)) :=
  match counts with
  | [] => Returns (s, [])
  | n :: ns =>
      '(s1, r, out) ← device_read to_user_ok n s f;
      '(s2, rs) ← read_seq to_user_ok ns s1 f;
      Returns (s2, (r, out) :: rs)
  end.

(** The bytes a sequence of reads asks for. *)
Definition total (ns : list Z) : Z := fold_right Z.add 0 ns.

(** What a read call lets its caller see: the value returned and the bytes
    delivered. *)
Definition observe (r : outcome (kstate * Z * list byte))
  : outcome (Z * list byte) :=
  '(_, v, out) ← r; Returns (v, out).

(** The queue's invariant: the counter is the number of linked elements and
    stays within the capacity. *)
Definition queue_ok (q : queue_device) : Prop :=
  data_size q = Z.of_nat (length (queue q)) /\ data_size q <= QUEUE_SIZE.

(** ** Populations of callers *)

(** Processes that open the device and close what they hold.  [opened] are
    the files open at the moment, the most recent first; a close takes the
    most recent one, and with nothing open there is nothing to close. *)
Inductive call : Type :=
| Open
| Close.

Fixpoint run_calls (cs : list call) (s : kstate) (opened : list file)
  : outcome (kstate * list file) :=
  match cs with
  | [] => Returns (s, opened)
  | Open :: cs' =>
      let '(s1, _, f) := device_open true s in
      run_calls cs' s1 (match f with
                        | Some f' => f' :: opened
                        | None => opened
                        end)
  | Close :: cs' =>
      match opened with
      | [] => run_calls cs' s opened
      | f :: rest => '(s1, _) ← device_release s f; run_calls cs' s1 rest
      end
  end.

(** [n] opens in a row, none released, with the files they return. *)
Fixpoint open_n (n : nat) (s : kstate) : kstate * list file :=
  match n with
  | O => (s, [])
  | S n' =>
      let '(s1, _, f) := device_open true s in
      let '(s2, fs) := open_n n' s1 in
      (s2, match f with
           | Some f' => f' :: fs
           | None => fs
           end)
  end.

(** ** queue_init and queue_exit *)

(** A pointer as a kernel constructor hands it out: [NULL], [ERR_PTR(-e)]
    or an object. *)
Inductive kptr : Type :=
| KNull
| KErr (e : Z)
| KObj.

Definition IS_ERR (p : kptr) : bool :=
  match p with
  | KErr _ => true
  | _ => false
  end.

Definition PTR_ERR (p : kptr) : Z :=
  match p with
  | KErr e => - e
  | _ => 0
  end.

(** What the kernel holds for the module: the character device region, the
    class and the device node. *)
Record registry : Type := mk_registry {
  chrdev : bool;
  class_made : bool;
  device_made : bool
}.

(** The module's view: its [major], what it has registered, and the
    globals the file operations work on. *)
Record module_state : Type := mk_module_state {
  major : Z;
  registered : registry;
  globals : kstate
}.

(** [queue_init].  The three arguments are what [register_chrdev] (an
    [int]), [class_create] and [device_create] return; a region, a class or
    a device exists when the call that makes it returned one. *)
Definition queue_init (register_chrdev_ret : Z) (class_create_ret : kptr)
    (device_create_ret : kptr) (m : module_state) : module_state * Z :=
  let major' := register_chrdev_ret in
  if major' <? 0 then
    ({| major := major'; registered := registered m; globals := globals m |},
     major')
  else
    let r1 := {| chrdev := true;
                 class_made := class_made (registered m);
                 device_made := device_made (registered m) |} in
    if IS_ERR class_create_ret then
      (* unregister_chrdev *)
      ({| major := major';
          registered := {| chrdev := false; class_made := class_made r1;
                           device_made := device_made r1 |};
          globals := globals m |},
       to_int (PTR_ERR class_create_ret))
    else
      let r2 := {| chrdev := chrdev r1;
                   class_made := match class_create_ret with
                                 | KObj => true
                                 | _ => class_made r1
                                 end;
                   device_made := device_made r1 |} in
      match device_create_ret with
      | KNull =>
          (* class_destroy; unregister_chrdev *)
          ({| major := major';
              registered := {| chrdev := false; class_made := false;
                               device_made := device_made r2 |};
              globals := globals m |},
           - ENOMEM)
      | _ =>
          ({| major := major';
              registered := {| chrdev := chrdev r2; class_made := class_made r2;
                               device_made :=
                                 match device_create_ret with
                                 | KObj => true
                                 | _ => device_made r2
                                 end |};
              globals := store (globals m) DefaultQueue empty_queue |},
           0)
      end.

(** [queue_exit]: [device_destroy], [class_destroy], [unregister_chrdev]. *)
Definition queue_exit (m : module_state) : module_state :=
  {| major := major m;
     registered := {| chrdev := false; class_made := false;
                      device_made := false |};
     globals := globals m |}.

(** The module as loaded, before [queue_init]: nothing registered and the
    globals as their initialisers leave them.  [q] stands for the storage
    of [default_queue], which only [queue_init] makes a queue. *)
Definition loaded (q : queue_device) : module_state :=
  {| major := 0;
     registered := {| chrdev := false; class_made := false;
                      device_made := false |};
     globals := {| device_mode := DEFAULT_MODE; single_open_lock := false;
                   default_queue := q; kheap := ∅ |} |}.

(** * Properties *)

(** ** Integer conversions within range *)

Lemma to_int_id z : - 2 ^ 31 <= z < 2 ^ 31 -> to_int z = z.
Proof.
  intros Hz. unfold to_int.
  rewrite Z.mod_small by lia. lia.
Qed.

Lemma to_size_t_id z : 0 <= z < 2 ^ 64 -> to_size_t z = z.
Proof. intros Hz. unfold to_size_t. apply Z.mod_small; lia. Qed.

Lemma to_ssize_t_id z : - 2 ^ 63 <= z < 2 ^ 63 -> to_ssize_t z = z.
Proof.
  intros Hz. unfold to_ssize_t.
  rewrite Z.mod_small by lia. lia.
Qed.

(** ** Pointers into the kernel state *)

Lemma deref_store s p q : deref (store s p q) p = Returns q.
Proof.
  destruct p as [|a]; simpl; [reflexivity|].
  by rewrite lookup_insert_eq.
Qed.

Lemma deref_store_ne s p p' q : p <> p' -> deref (store s p q) p' = deref s p'.
Proof.
  intros Hne. destruct p as [|a], p' as [|a']; simpl; try reflexivity.
  - congruence.
  - rewrite lookup_insert_ne; [reflexivity|congruence].
Qed.

Lemma store_same s p q : deref s p = Returns q -> store s p q = s.
Proof.
  destruct s as [m l d h], p as [|a]; simpl.
  - intros [= ->]. reflexivity.
  - destruct (h !! a) as [q'|] eqn:Hq; [|discriminate].
    intros [= ->]. unfold set_kheap; simpl. by rewrite insert_id.
Qed.

Lemma store_store s p q q' : store (store s p q) p q' = store s p q'.
Proof.
  destruct p as [|a]; simpl; [reflexivity|].
  unfold set_kheap; simpl. by rewrite insert_insert_eq.
Qed.

Lemma device_mode_store s p q : device_mode (store s p q) = device_mode s.
Proof. by destruct p. Qed.

Lemma single_open_lock_store s p q :
  single_open_lock (store s p q) = single_open_lock s.
Proof. by destruct p. Qed.

(** The file-level calls are the queue-level bodies run on the queue the
    file points to. *)
Lemma device_write_deref km buf count s f q :
  deref s (private_data f) = Returns q ->
  device_write km buf count s f =
    Returns (store s (private_data f) (queue_write km buf count q).1,
             (queue_write km buf count q).2).
Proof.
  intros Hq. unfold device_write. rewrite Hq. simpl.
  by destruct (queue_write km buf count q).
Qed.

Lemma device_read_deref ok count s f q q' r out :
  deref s (private_data f) = Returns q ->
  queue_read ok count q = Returns (q', r, out) ->
  device_read ok count s f = Returns (store s (private_data f) q', r, out).
Proof.
  intros Hq Hr. unfold device_read. rewrite Hq. simpl. by rewrite Hr.
Qed.

(** ** The write loop *)

(** While allocation and copy succeed, the loop appends the bytes it copies
    and counts them. *)
Lemma write_loop_prefix km buf (l : list byte) :
  forall (n : nat) (i : Z) (dev : queue_device),
    (forall k : nat, (k < length l)%nat ->
       km (i + Z.of_nat k) = true /\ buf (i + Z.of_nat k) = l !! k) ->
    - 2 ^ 31 <= data_size dev ->
    data_size dev + Z.of_nat (length l) < 2 ^ 31 ->
    write_loop km buf (length l + n) i dev =
    write_loop km buf n (i + Z.of_nat (length l))
      {| queue := queue dev ++ l;
         data_size := data_size dev + Z.of_nat (length l) |}.
Proof.
  induction l as [|c l IH]; intros n i dev Hstep Hlo Hhi.
  - simpl. destruct dev as [qs d]; simpl.
    rewrite app_nil_r, !Z.add_0_r. reflexivity.
  - simpl length in *. simpl.
    destruct (Hstep O ltac:(lia)) as [Hk Hb].
    rewrite Z.add_0_r in Hk, Hb. rewrite Hk, Hb. simpl.
    rewrite IH; simpl.
    + rewrite to_int_id by lia. rewrite <- app_assoc. simpl.
      f_equal; [lia|f_equal; lia].
    + intros k Hlt. destruct (Hstep (S k) ltac:(lia)) as [Hk' Hb'].
      replace (i + 1 + Z.of_nat k) with (i + Z.of_nat (S k)) by lia.
      split; [exact Hk'|]. rewrite Hb'. reflexivity.
    + rewrite to_int_id by lia. lia.
    + rewrite to_int_id by lia. lia.
Qed.

(** The value [ret] the loop leaves is 0 or one of its two error codes, and
    [i] never passes the bound. *)
Lemma write_loop_ret km buf :
  forall (n : nat) (i : Z) (dev : queue_device),
    let '(_, ret, j) := write_loop km buf n i dev in
    (ret = 0 \/ ret = - ENOMEM \/ ret = - EFAULT) /\
    i <= j <= i + Z.of_nat n.
Proof.
  induction n as [|n IH]; intros i dev; simpl.
  - split; [by left|lia].
  - destruct (km i).
    + destruct (buf i) as [c|].
      * specialize (IH (i + 1)
          {| queue := queue dev ++ [c];
             data_size := to_int (data_size dev + 1) |}).
        destruct (write_loop km buf n (i + 1) _) as [[dev' ret] j].
        destruct IH as [Hr Hj]. split; [exact Hr|lia].
      * split; [by right; right|lia].
    + split; [by right; left|lia].
Qed.

(** ** The read loop *)

(** While the copies succeed, the loop removes the head bytes it delivers. *)
Lemma read_loop_prefix ok (l : list byte) :
  forall (n : nat) (i : Z) (rest : list byte) (d : Z) (out : list byte),
    (forall k : nat, (k < length l)%nat -> ok (i + Z.of_nat k) = true) ->
    Z.of_nat (length l) <= d < 2 ^ 31 ->
    read_loop ok (length l + n) i {| queue := l ++ rest; data_size := d |} out =
    read_loop ok n (i + Z.of_nat (length l))
      {| queue := rest; data_size := d - Z.of_nat (length l) |} (out ++ l).
Proof.
  induction l as [|c l IH]; intros n i rest d out Hok Hd.
  - simpl. rewrite app_nil_r, Z.add_0_r, Z.sub_0_r. reflexivity.
  - simpl length in *. simpl.
    destruct (Z.gtb_spec d 0) as [_|Hle]; [|lia].
    pose proof (Hok O ltac:(lia)) as Hk. rewrite Z.add_0_r in Hk.
    rewrite Hk. rewrite to_int_id by lia.
    rewrite IH.
    + rewrite <- app_assoc. simpl. f_equal; [lia|f_equal; lia].
    + intros k Hlt. specialize (Hok (S k) ltac:(lia)).
      replace (i + 1 + Z.of_nat k) with (i + Z.of_nat (S k)) by lia.
      exact Hok.
    + lia.
Qed.

(** ** A write call on a queue *)

Lemma user_buffer_lookup (l : list byte) (k : nat) :
  user_buffer l (Z.of_nat k) = l !! k.
Proof.
  unfold user_buffer.
  destruct (Z.ltb_spec (Z.of_nat k) 0) as [Hlt|_]; [lia|].
  by rewrite Nat2Z.id.
Qed.

(** The overflow test, when the sum does not wrap. *)
Lemma overflow_test count d :
  0 <= d -> 0 <= count -> count + d < 2 ^ 64 ->
  (to_size_t (count + to_size_t d) >? to_size_t QUEUE_SIZE) =
  (d + count >? QUEUE_SIZE).
Proof.
  intros Hd Hc Hsum.
  rewrite (to_size_t_id d) by lia.
  rewrite (to_size_t_id (count + d)) by lia.
  rewrite (to_size_t_id QUEUE_SIZE) by (unfold QUEUE_SIZE; lia).
  f_equal. lia.
Qed.

(** Past that range the unsigned sum wraps and the test lets the call
    through; [vfs_write] caps [count] at [MAX_RW_COUNT], below 2^31, so the
    driver is never called there. *)
Lemma overflow_test_wraps :
  (to_size_t (2 ^ 64 - 1 + to_size_t 1) >? to_size_t QUEUE_SIZE) = false.
Proof. reflexivity. Qed.

(** A call that is let through and whose first [length l] bytes are
    allocated and copied: what the loop does next decides the result. *)
Lemma queue_write_prefix km buf (l : list byte) (n : nat) dev :
  0 <= data_size dev ->
  data_size dev + Z.of_nat (length l + n) <= QUEUE_SIZE ->
  (forall k : nat, (k < length l)%nat ->
     km (Z.of_nat k) = true /\ buf (Z.of_nat k) = l !! k) ->
  queue_write km buf (Z.of_nat (length l + n)) dev =
  let '(dev', ret, i) :=
    write_loop km buf n (Z.of_nat (length l))
      {| queue := queue dev ++ l;
         data_size := data_size dev + Z.of_nat (length l) |} in
  (dev', if ret =? 0 then to_ssize_t i else ret).
Proof.
  intros Hd Hcap Hstep. unfold queue_write, QUEUE_SIZE in *.
  rewrite overflow_test by (unfold QUEUE_SIZE; lia).
  destruct (Z.gtb_spec (data_size dev + Z.of_nat (length l + n)) QUEUE_SIZE)
    as [Hgt|_]; [unfold QUEUE_SIZE in Hgt; lia|].
  rewrite Nat2Z.id, write_loop_prefix; [reflexivity| |lia|lia].
  intros k Hk. rewrite Z.add_0_l. by apply Hstep.
Qed.

(** Every byte allocated and copied: the call appends them all and returns
    their number. *)
Lemma queue_write_all (l : list byte) dev :
  0 <= data_size dev ->
  data_size dev + Z.of_nat (length l) <= QUEUE_SIZE ->
  queue_write always (user_buffer l) (Z.of_nat (length l)) dev =
  ({| queue := queue dev ++ l;
      data_size := data_size dev + Z.of_nat (length l) |},
   Z.of_nat (length l)).
Proof.
  intros Hd Hcap.
  pose proof (queue_write_prefix always (user_buffer l) l 0 dev) as H.
  rewrite Nat.add_0_r in H. rewrite H; [|lia|lia|].
  - simpl. rewrite to_ssize_t_id; [reflexivity|].
    unfold QUEUE_SIZE in Hcap. lia.
  - intros k _. split; [reflexivity|apply user_buffer_lookup].
Qed.

(** ** A read call on a queue *)

Lemma read_loop_drained ok (n : nat) i dev out :
  data_size dev <= 0 ->
  read_loop ok n i dev out = Returns (dev, 0, i, out).
Proof.
  intros Hd. destruct n as [|n]; simpl; [reflexivity|].
  destruct (Z.gtb_spec (data_size dev) 0) as [Hgt|_]; [lia|reflexivity].
Qed.

(** A call whose first [m] copies succeed, on a queue holding at least [m]
    bytes: what the loop does next decides the result. *)
Lemma queue_read_prefix ok (m n : nat) dev :
  data_size dev = Z.of_nat (length (queue dev)) ->
  data_size dev < 2 ^ 31 ->
  (m <= length (queue dev))%nat ->
  (forall k : nat, (k < m)%nat -> ok (Z.of_nat k) = true) ->
  queue_read ok (Z.of_nat (m + n)) dev =
  ('(dev', ret, i, out) ←
     read_loop ok n (Z.of_nat m)
       {| queue := drop m (queue dev);
          data_size := data_size dev - Z.of_nat m |} (take m (queue dev));
   Returns (dev', (if ret =? 0 then to_ssize_t i else ret), out)).
Proof.
  intros Hlen Hint Hm Hok. unfold queue_read.
  rewrite Nat2Z.id.
  destruct dev as [qs d]; simpl in *.
  pose proof (read_loop_prefix ok (take m qs) n 0 (drop m qs) d []) as H.
  rewrite take_drop in H.
  assert (Hlt : length (take m qs) = m) by (rewrite length_take; lia).
  rewrite Hlt in H. rewrite H; [reflexivity| |lia].
  intros k Hk. rewrite Z.add_0_l. by apply Hok.
Qed.

(** A read whose copies succeed takes [min count data_size] bytes off the
    head of a queue that satisfies its invariant. *)
Lemma queue_read_min ok count q :
  queue_ok q -> 0 <= count ->
  (forall k, 0 <= k < Z.min count (data_size q) -> ok k = true) ->
  let m := Z.to_nat (Z.min count (data_size q)) in
  queue_read ok count q =
  Returns ({| queue := drop m (queue q);
              data_size := data_size q - Z.of_nat m |},
           Z.of_nat m, take m (queue q)).
Proof.
  intros [Hlen Hcap] Hc Hok m. unfold QUEUE_SIZE in Hcap.
  assert (Hm : Z.of_nat m = Z.min count (data_size q)) by (subst m; lia).
  replace count with (Z.of_nat (m + (Z.to_nat count - m))) by lia.
  rewrite queue_read_prefix; [|done|lia|lia|].
  - destruct (Z.to_nat count - m)%nat as [|n] eqn:Hn.
    + simpl. rewrite to_ssize_t_id by lia. reflexivity.
    + rewrite read_loop_drained by (simpl; lia). simpl.
      rewrite to_ssize_t_id by lia. reflexivity.
  - intros k Hk. apply Hok. lia.
Qed.

Lemma queue_ok_after_read q (m : nat) :
  queue_ok q -> (m <= length (queue q))%nat ->
  queue_ok {| queue := drop m (queue q);
              data_size := data_size q - Z.of_nat m |}.
Proof.
  intros [Hlen Hcap] Hm. unfold queue_ok; simpl.
  rewrite length_drop. split; lia.
Qed.

Lemma queue_ok_after_write q (l : list byte) :
  queue_ok q -> data_size q + Z.of_nat (length l) <= QUEUE_SIZE ->
  queue_ok {| queue := queue q ++ l;
              data_size := data_size q + Z.of_nat (length l) |}.
Proof.
  intros [Hlen Hcap] Hfit. unfold queue_ok; simpl.
  rewrite length_app. split; lia.
Qed.

(** ** Overflow *)

(** C2: a write call returns -ENOSPC exactly when [data_size + count]
    exceeds [QUEUE_SIZE], and then the kernel state, the queue with it, is
    what it was.  [count] is the [size_t] the VFS passes on, far from the
    wrap-around of the unsigned sum. *)
Theorem write_overflow_rejected km buf count s f q :
  deref s (private_data f) = Returns q ->
  0 <= data_size q -> 0 <= count -> count + data_size q < 2 ^ 64 ->
  exists s' r,
    device_write km buf count s f = Returns (s', r) /\
    (r = - ENOSPC <-> data_size q + count > QUEUE_SIZE) /\
    (data_size q + count > QUEUE_SIZE ->
     s' = s /\ deref s' (private_data f) = Returns q).
Proof.
  intros Hq Hd Hc Hsum.
  rewrite (device_write_deref _ _ _ _ _ _ Hq).
  unfold queue_write. rewrite overflow_test by lia.
  destruct (Z.gtb_spec (data_size q + count) QUEUE_SIZE) as [Hgt|Hle].
  - exists s, (- ENOSPC). simpl. rewrite (store_same _ _ _ Hq).
    repeat split; auto; lia.
  - pose proof (write_loop_ret km buf (Z.to_nat count) 0 q) as Hret.
    destruct (write_loop km buf (Z.to_nat count) 0 q) as [[q' ret] j].
    destruct Hret as [Hr Hj]. simpl.
    eexists _, _. split; [reflexivity|].
    split; [|intros Hgt; lia].
    split; [|intros Hgt; lia].
    unfold QUEUE_SIZE, ENOSPC, ENOMEM, EFAULT in *.
    destruct Hr as [-> | [-> | ->]]; simpl; [|lia|lia].
    rewrite to_ssize_t_id by lia. lia.
Qed.

Lemma write_overflow_rejected_witness :
  exists s' r,
    device_write always (user_buffer [x00; x01]) 2
      (store init_state DefaultQueue
         {| queue := repeat x00 999; data_size := 999 |})
      (mk_file DefaultQueue) = Returns (s', r) /\
    r = - ENOSPC.
Proof.
  destruct (write_overflow_rejected always (user_buffer [x00; x01]) 2
    (store init_state DefaultQueue
       {| queue := repeat x00 999; data_size := 999 |})
    (mk_file DefaultQueue) {| queue := repeat x00 999; data_size := 999 |})
    as (s' & r & Hw & Hiff & _).
  - reflexivity.
  - simpl; lia.
  - lia.
  - simpl; lia.
  - exists s', r. split; [exact Hw|]. apply Hiff. simpl. unfold QUEUE_SIZE. lia.
Defined.

(** ** A write that fails partway *)

(** C7: when a write call that passed the overflow test has appended the
    bytes [l] and then fails at the next byte (no memory for its element, or
    the byte cannot be copied from the caller, whose element is then freed
    and never linked), the bytes [l] stay at the tail of the queue and are
    counted, and the call returns -ENOMEM or -EFAULT, a negative value and
    not the number of bytes appended. *)
Theorem write_partial_failure km buf (l : list byte) count s f q :
  deref s (private_data f) = Returns q ->
  0 <= data_size q ->
  data_size q + count <= QUEUE_SIZE ->
  Z.of_nat (length l) < count ->
  (forall k : nat, (k < length l)%nat ->
     km (Z.of_nat k) = true /\ buf (Z.of_nat k) = l !! k) ->
  km (Z.of_nat (length l)) = false \/ buf (Z.of_nat (length l)) = None ->
  exists r,
    device_write km buf count s f =
    Returns (store s (private_data f)
               {| queue := queue q ++ l;
                  data_size := data_size q + Z.of_nat (length l) |}, r) /\
    r = (if km (Z.of_nat (length l)) then - EFAULT else - ENOMEM) /\
    r < 0 /\ r <> Z.of_nat (length l).
Proof.
  intros Hq Hd Hcap Hlt Hstep Hfail.
  rewrite (device_write_deref _ _ _ _ _ _ Hq).
  replace count with (Z.of_nat (length l + S (Z.to_nat count - length l - 1)))
    in * by lia.
  set (n := (Z.to_nat _ - length l - 1)%nat) in *.
  rewrite queue_write_prefix by (done || lia).
  simpl write_loop.
  destruct (km (Z.of_nat (length l))) eqn:Hkm.
  - destruct Hfail as [Hf|Hf]; [discriminate|]. rewrite Hf. simpl.
    eexists. split; [reflexivity|]. unfold EFAULT. repeat split; lia.
  - simpl. eexists. split; [reflexivity|]. unfold ENOMEM. repeat split; lia.
Qed.

Lemma write_partial_failure_witness :
  exists r,
    device_write (fun i => i <? 2) (user_buffer [x61; x62; x63]) 3
      init_state (mk_file DefaultQueue) =
    Returns (store init_state DefaultQueue
               {| queue := [x61; x62]; data_size := 2 |}, r) /\
    r = - ENOMEM.
Proof.
  destruct (write_partial_failure (fun i => i <? 2)
              (user_buffer [x61; x62; x63]) [x61; x62] 3
              init_state (mk_file DefaultQueue) empty_queue)
    as (r & Hw & Hr & _).
  - reflexivity.
  - simpl; lia.
  - simpl; unfold QUEUE_SIZE; lia.
  - simpl; lia.
  - intros [|[|k]] Hk; simpl in Hk; try lia; split; reflexivity.
  - left. reflexivity.
  - exists r. split; [exact Hw|exact Hr].
Defined.

(** ** Reads *)

(** C9: on a queue that satisfies its invariant, a read call whose copies to
    the caller succeed removes the first [min count data_size] bytes, hands
    them over in order and returns their number.  On an empty queue every
    read, whatever the caller's buffer, returns 0 with no byte and leaves
    the kernel state as it was, however often it is repeated. *)
Theorem read_takes_min ok count s f q :
  deref s (private_data f) = Returns q ->
  queue_ok q -> 0 <= count ->
  (forall k, 0 <= k < Z.min count (data_size q) -> ok k = true) ->
  let m := Z.to_nat (Z.min count (data_size q)) in
  device_read ok count s f =
    Returns (store s (private_data f)
               {| queue := drop m (queue q);
                  data_size := data_size q - Z.of_nat m |},
             Z.min count (data_size q), take m (queue q)) /\
  (data_size q = 0 ->
   forall ok' counts,
     read_seq ok' counts s f = Returns (s, map (fun _ => (0, [])) counts)).
Proof.
  intros Hq Hok Hc Hcopy m. split.
  - rewrite (device_read_deref ok count s f q _ _ _ Hq
               (queue_read_min ok count q Hok Hc Hcopy)).
    fold m. do 3 f_equal. destruct Hok as [Hlen _]. lia.
  - intros Hz ok' counts.
    assert (Hempty : forall n, device_read ok' n s f = Returns (s, 0, [])).
    { intros n. unfold device_read. rewrite Hq. simpl.
      unfold queue_read. rewrite read_loop_drained by lia. simpl.
      rewrite (store_same _ _ _ Hq). reflexivity. }
    induction counts as [|n ns IH]; simpl; [reflexivity|].
    rewrite Hempty. simpl. rewrite IH. reflexivity.
Qed.

Lemma read_takes_min_witness :
  device_read always 5
    (store init_state DefaultQueue {| queue := [x61; x62; x63]; data_size := 3 |})
    (mk_file DefaultQueue) =
  Returns (store init_state DefaultQueue empty_queue, 3, [x61; x62; x63]).
Proof.
  destruct (read_takes_min always 5
    (store init_state DefaultQueue {| queue := [x61; x62; x63]; data_size := 3 |})
    (mk_file DefaultQueue) {| queue := [x61; x62; x63]; data_size := 3 |})
    as [Hr _].
  - reflexivity.
  - split; simpl; unfold QUEUE_SIZE; lia.
  - lia.
  - intros k _. reflexivity.
  - exact Hr.
Defined.

(** C10: on a queue that satisfies its invariant, when the first [i] copies
    to the caller succeed and the copy of byte [i] fails, the call has
    removed exactly the [i] bytes it delivered, the byte that could not be
    delivered is still the head of the queue, [data_size] has gone down by
    [i], and the call returns -EFAULT, not [i]. *)
Theorem read_fault_keeps_failed_byte ok count (i : nat) s f q :
  deref s (private_data f) = Returns q ->
  queue_ok q ->
  Z.of_nat i < count -> Z.of_nat i < data_size q ->
  (forall k : nat, (k < i)%nat -> ok (Z.of_nat k) = true) ->
  ok (Z.of_nat i) = false ->
  exists b rest,
    queue q !! i = Some b /\
    queue q = take i (queue q) ++ b :: rest /\
    device_read ok count s f =
    Returns (store s (private_data f)
               {| queue := b :: rest;
                  data_size := data_size q - Z.of_nat i |},
             - EFAULT, take i (queue q)) /\
    - EFAULT <> Z.of_nat i.
Proof.
  intros Hq [Hlen Hcap] Hcount Hsize Hok Hfail. unfold QUEUE_SIZE in Hcap.
  destruct (queue q !! i) as [b|] eqn:Hb.
  2:{ apply lookup_ge_None in Hb. lia. }
  exists b, (drop (S i) (queue q)).
  pose proof (take_drop_middle _ _ _ Hb) as Hsplit.
  assert (Hdrop : drop i (queue q) = b :: drop (S i) (queue q)).
  { by apply drop_S. }
  split; [reflexivity|]. split; [by rewrite Hsplit|].
  split; [|unfold EFAULT; lia].
  apply (device_read_deref _ _ _ _ _ _ _ _ Hq).
  replace count with (Z.of_nat (i + S (Z.to_nat count - i - 1))) by lia.
  rewrite queue_read_prefix; [|done|lia|lia|done].
  rewrite Hdrop. simpl read_loop.
  destruct (Z.gtb_spec (data_size q - Z.of_nat i) 0) as [_|Hle]; [|lia].
  rewrite Hfail. reflexivity.
Qed.

Lemma read_fault_keeps_failed_byte_witness :
  device_read (fun k => k <? 1) 3
    (store init_state DefaultQueue {| queue := [x61; x62; x63]; data_size := 3 |})
    (mk_file DefaultQueue) =
  Returns (store init_state DefaultQueue {| queue := [x62; x63]; data_size := 2 |},
           - EFAULT, [x61]).
Proof.
  destruct (read_fault_keeps_failed_byte (fun k => k <? 1) 3 1
    (store init_state DefaultQueue {| queue := [x61; x62; x63]; data_size := 3 |})
    (mk_file DefaultQueue) {| queue := [x61; x62; x63]; data_size := 3 |})
    as (b & rest & Hb & Hsplit & Hr & _).
  - reflexivity.
  - split; simpl; unfold QUEUE_SIZE; lia.
  - lia.
  - simpl; lia.
  - intros [|k] Hk; [reflexivity|lia].
  - reflexivity.
  - simpl in Hb, Hsplit. injection Hb as <-. injection Hsplit as <-.
    exact Hr.
Defined.

(** ** First in, first out *)

Lemma total_nonneg ns : Forall (fun n => 0 <= n) ns -> 0 <= total ns.
Proof.
  induction 1 as [|n ns Hn _ IH]; simpl; [reflexivity|lia].
Qed.

Lemma queue_device_eq l l' d d' :
  l = l' -> d = d' ->
  {| queue := l; data_size := d |} = {| queue := l'; data_size := d' |}.
Proof. by intros -> ->. Qed.

(** Writes that fit append their bytes at the tail, call after call. *)
Lemma write_seq_appends chunks :
  forall s f q,
    deref s (private_data f) = Returns q ->
    queue_ok q ->
    data_size q + Z.of_nat (length (concat chunks)) <= QUEUE_SIZE ->
    write_seq chunks s f =
    Returns (store s (private_data f)
               {| queue := queue q ++ concat chunks;
                  data_size := data_size q + Z.of_nat (length (concat chunks)) |},
             map (fun c => Z.of_nat (length c)) chunks).
Proof.
  induction chunks as [|c cs IH]; intros s f q Hq Hok Hfit; simpl in *.
  - rewrite app_nil_r, Z.add_0_r.
    destruct q as [l d]; simpl. by rewrite (store_same _ _ _ Hq).
  - rewrite length_app in Hfit.
    pose proof Hok as [Hlen Hcap].
    unfold write_bytes. rewrite (device_write_deref _ _ _ _ _ _ Hq).
    rewrite queue_write_all by lia. simpl.
    set (q1 := {| queue := queue q ++ c;
                  data_size := data_size q + Z.of_nat (length c) |}).
    rewrite (IH (store s (private_data f) q1) f q1 (deref_store _ _ _)); simpl.
    + rewrite store_store. do 3 f_equal.
      apply queue_device_eq; [by rewrite app_assoc|rewrite length_app; lia].
    + apply queue_ok_after_write; [done|lia].
    + lia.
Qed.

(** Reads that ask for no more than is queued take their bytes off the
    head, call after call. *)
Lemma read_seq_takes counts :
  forall s f q,
    deref s (private_data f) = Returns q ->
    queue_ok q ->
    Forall (fun n => 0 <= n) counts ->
    total counts <= data_size q ->
    let m := Z.to_nat (total counts) in
    exists outs,
      read_seq always counts s f =
      Returns (store s (private_data f)
                 {| queue := drop m (queue q);
                    data_size := data_size q - Z.of_nat m |}, outs) /\
      map fst outs = counts /\
      concat (map snd outs) = take m (queue q).
Proof.
  induction counts as [|n ns IH]; intros s f q Hq Hok Hpos Hsum; simpl in *.
  - exists []. rewrite Z.sub_0_r, Z2Nat.inj_0, drop_0, take_0.
    destruct q as [l d]; simpl. by rewrite (store_same _ _ _ Hq).
  - inversion Hpos as [|? ? Hn Hns]; subst.
    pose proof (total_nonneg _ Hns) as Htot.
    pose proof Hok as [Hlen Hcap].
    assert (Hmin : Z.min n (data_size q) = n) by lia.
    pose proof (queue_read_min always n q Hok Hn (fun _ _ => eq_refl)) as Hr.
    simpl in Hr. rewrite Hmin in Hr.
    rewrite (device_read_deref _ _ _ _ _ _ _ _ Hq Hr). simpl.
    set (q1 := {| queue := drop (Z.to_nat n) (queue q);
                  data_size := data_size q - Z.of_nat (Z.to_nat n) |}) in *.
    assert (Hok1 : queue_ok q1).
    { apply queue_ok_after_read; [done|lia]. }
    destruct (IH (store s (private_data f) q1) f q1 (deref_store _ _ _) Hok1 Hns)
      as (outs & Hrs & Hfst & Hsnd).
    { simpl. lia. }
    simpl in Hrs, Hsnd. rewrite Hrs. simpl.
    eexists. split; [|split].
    + rewrite store_store. do 3 f_equal.
      apply queue_device_eq; [|lia].
      rewrite drop_drop. f_equal. lia.
    + simpl. f_equal; [lia|done].
    + simpl. rewrite Hsnd, take_take_drop. f_equal. lia.
Qed.

(** C1: starting from an empty queue, writes on one file whose lengths add
    up to at most [QUEUE_SIZE] all succeed, each returning its length, and
    the queue then holds their bytes in the order written.  A read of the
    total length on a file bound to the same queue returns exactly these
    bytes in that order, and so does any sequence of reads whose counts add
    up to the total: each returns as many bytes as it asked for, and their
    concatenation is the concatenation of what was written. *)
Theorem fifo_write_then_read chunks s f g :
  private_data g = private_data f ->
  deref s (private_data f) = Returns empty_queue ->
  Z.of_nat (length (concat chunks)) <= QUEUE_SIZE ->
  let n := Z.of_nat (length (concat chunks)) in
  exists s1,
    write_seq chunks s f =
      Returns (s1, map (fun c => Z.of_nat (length c)) chunks) /\
    deref s1 (private_data f) =
      Returns {| queue := concat chunks; data_size := n |} /\
    device_read always n s1 g =
      Returns (store s1 (private_data g) empty_queue, n, concat chunks) /\
    forall counts,
      Forall (fun k => 0 <= k) counts -> total counts = n ->
      exists outs,
        read_seq always counts s1 g =
          Returns (store s1 (private_data g) empty_queue, outs) /\
        map fst outs = counts /\
        concat (map snd outs) = concat chunks.
Proof.
  intros Hg Hq Hfit n.
  assert (Hok0 : queue_ok empty_queue) by (split; simpl; unfold QUEUE_SIZE; lia).
  pose proof (write_seq_appends chunks s f empty_queue Hq Hok0) as Hw.
  simpl in Hw. rewrite Hw by lia. clear Hw.
  set (q1 := {| queue := concat chunks; data_size := n |}).
  set (s1 := store s (private_data f) q1).
  assert (Hq1 : deref s1 (private_data g) = Returns q1).
  { rewrite Hg. apply deref_store. }
  assert (Hok1 : queue_ok q1) by (split; simpl; subst n; lia).
  exists s1. split; [reflexivity|]. split; [by rewrite <- Hg|].
  assert (Hempty : {| queue := drop (Z.to_nat n) (concat chunks);
                      data_size := n - Z.of_nat (Z.to_nat n) |} = empty_queue).
  { apply queue_device_eq; [|lia]. apply drop_ge. subst n. lia. }
  split.
  - pose proof (queue_read_min always n q1 Hok1 ltac:(lia) (fun _ _ => eq_refl))
      as Hr.
    simpl in Hr. rewrite Z.min_id in Hr.
    rewrite (device_read_deref _ _ _ _ _ _ _ _ Hq1 Hr).
    rewrite Hempty, Z2Nat.id by lia. do 2 f_equal.
    apply take_ge. subst n. lia.
  - intros counts Hpos Htot.
    destruct (read_seq_takes counts s1 g q1 Hq1 Hok1 Hpos) as (outs & Hr & Hf & Hs).
    { simpl. lia. }
    simpl in Hr, Hs. rewrite Htot in Hr, Hs. rewrite Hempty in Hr.
    exists outs. split; [exact Hr|]. split; [exact Hf|].
    rewrite Hs. apply take_ge. subst n. lia.
Qed.

Lemma fifo_write_then_read_witness :
  exists s1,
    write_seq [[x61; x62]; [x63]] init_state (mk_file DefaultQueue) =
      Returns (s1, [2; 1]) /\
    device_read always 3 s1 (mk_file DefaultQueue) =
      Returns (store s1 DefaultQueue empty_queue, 3, [x61; x62; x63]).
Proof.
  destruct (fifo_write_then_read [[x61; x62]; [x63]] init_state
              (mk_file DefaultQueue) (mk_file DefaultQueue) eq_refl eq_refl)
    as (s1 & Hw & _ & Hr & _).
  - simpl. unfold QUEUE_SIZE. lia.
  - exists s1. split; [exact Hw|exact Hr].
Defined.

(** ** Exclusive mode *)

(** C6: in single-open mode, while the lock is held, [device_open] returns
    -EBUSY at once, gives no file and changes nothing; it is a try-lock, a
    plain test of the lock.  When the file that holds the lock is released
    the lock is free again, and the next open succeeds, takes the lock and
    is bound to the shared queue. *)
Theorem exclusive_open_busy kz s f :
  device_mode s = SINGLE_OPEN_MODE ->
  single_open_lock s = true ->
  private_data f = DefaultQueue ->
  device_open kz s = (s, - EBUSY, None) /\
  exists s1,
    device_release s f = Returns (s1, 0) /\
    single_open_lock s1 = false /\
    device_open kz s1 = (set_lock true s1, 0, Some (mk_file DefaultQueue)).
Proof.
  intros Hmode Hlock Hf. split.
  - unfold device_open. rewrite Hmode, Hlock. reflexivity.
  - unfold device_release, mutex_unlock. rewrite Hmode, Hlock, Hf. simpl.
    rewrite Hmode. simpl.
    eexists. split; [reflexivity|]. split; [reflexivity|].
    unfold device_open. reflexivity.
Qed.

Lemma exclusive_open_busy_witness :
  device_open true (set_lock true (set_mode SINGLE_OPEN_MODE init_state)) =
  (set_lock true (set_mode SINGLE_OPEN_MODE init_state), - EBUSY, None).
Proof.
  apply (exclusive_open_busy true
           (set_lock true (set_mode SINGLE_OPEN_MODE init_state))
           (mk_file DefaultQueue)); reflexivity.
Defined.

(** ** Per-handle mode *)

Lemma observe_device_read ok n s f :
  observe (device_read ok n s f) =
  (q ← deref s (private_data f);
   '(_, v, out) ← queue_read ok n q; Returns (v, out)).
Proof.
  unfold observe, device_read.
  destruct (deref s (private_data f)) as [q|]; simpl; [|reflexivity].
  destruct (queue_read ok n q) as [[[q' v] out]|]; reflexivity.
Qed.

(** A write through one pointer leaves every other queue as it was. *)
Lemma device_write_frame km buf count s f s' r p :
  device_write km buf count s f = Returns (s', r) ->
  p <> private_data f ->
  deref s' p = deref s p.
Proof.
  unfold device_write. intros Hw Hne.
  destruct (deref s (private_data f)) as [q|]; simpl in Hw; [|discriminate].
  destruct (queue_write km buf count q) as [q' v].
  injection Hw as <- <-. apply deref_store_ne. congruence.
Qed.

(** An open in multi-open mode whose allocation succeeds. *)
Lemma device_open_multi s :
  device_mode s = MULTI_OPEN_MODE ->
  device_open true s =
  (set_kheap (<[fresh (dom (kheap s)) := empty_queue]> (kheap s)) s, 0,
   Some (mk_file (Kmem (fresh (dom (kheap s)))))).
Proof.
  intros Hmode. unfold device_open. rewrite Hmode. simpl.
  rewrite Hmode. reflexivity.
Qed.

(** C8: in multi-open mode two successive opens get two distinct, freshly
    allocated, empty queues.  A write through the second file, whatever it
    carries and however it ends, leaves the first file's queue as it was,
    so every read through the first file returns what it would have
    returned without that write.  In particular, after [wa] is written
    through the first and [wb] through the second, reading the first
    file's whole queue yields exactly [wa]. *)
Theorem perhandle_isolation s :
  device_mode s = MULTI_OPEN_MODE ->
  exists a b s1 s2,
    device_open true s = (s1, 0, Some a) /\
    device_open true s1 = (s2, 0, Some b) /\
    private_data a <> private_data b /\
    deref s (private_data a) = Undefined /\
    deref s1 (private_data b) = Undefined /\
    deref s2 (private_data a) = Returns empty_queue /\
    deref s2 (private_data b) = Returns empty_queue /\
    (forall t km buf count t' r,
       device_write km buf count t b = Returns (t', r) ->
       deref t' (private_data a) = deref t (private_data a) /\
       forall ok n,
         observe (device_read ok n t' a) = observe (device_read ok n t a)) /\
    (forall (wa wb : list byte) n,
       Z.of_nat (length wa) <= QUEUE_SIZE ->
       Z.of_nat (length wa) <= n ->
       exists s3 s4 rb s5,
         write_bytes wa s2 a = Returns (s3, Z.of_nat (length wa)) /\
         write_bytes wb s3 b = Returns (s4, rb) /\
         device_read always n s4 a =
           Returns (s5, Z.of_nat (length wa), wa)).
Proof.
  intros Hmode.
  set (pa := fresh (dom (kheap s))).
  set (s1 := set_kheap (<[pa := empty_queue]> (kheap s)) s).
  set (pb := fresh (dom (kheap s1))).
  set (s2 := set_kheap (<[pb := empty_queue]> (kheap s1)) s1).
  assert (Hpa : kheap s !! pa = None).
  { apply not_elem_of_dom. apply is_fresh. }
  assert (Hpb : kheap s1 !! pb = None).
  { apply not_elem_of_dom. apply is_fresh. }
  assert (Hne : pa <> pb).
  { intros Heq. rewrite <- Heq in Hpb. simpl in Hpb.
    rewrite lookup_insert_eq in Hpb. discriminate. }
  exists (mk_file (Kmem pa)), (mk_file (Kmem pb)), s1, s2.
  assert (Ha2 : deref s2 (Kmem pa) = Returns empty_queue).
  { simpl. rewrite lookup_insert_ne by congruence.
    by rewrite lookup_insert_eq. }
  assert (Hb2 : deref s2 (Kmem pb) = Returns empty_queue).
  { simpl. by rewrite lookup_insert_eq. }
  assert (Hframe : forall t km buf count t' r,
    device_write km buf count t (mk_file (Kmem pb)) = Returns (t', r) ->
    deref t' (Kmem pa) = deref t (Kmem pa)).
  { intros t km buf count t' r Hw.
    apply (device_write_frame _ _ _ _ _ _ _ _ Hw). simpl. congruence. }
  repeat split.
  - by apply device_open_multi.
  - by apply device_open_multi.
  - simpl. congruence.
  - simpl. by rewrite Hpa.
  - change (deref s1 (Kmem pb) = Undefined). unfold deref. by rewrite Hpb.
  - exact Ha2.
  - exact Hb2.
  - eapply Hframe; eassumption.
  - intros ok n. rewrite !observe_device_read. simpl private_data.
    by rewrite (Hframe _ _ _ _ _ _ H).
  - intros wa wb n Hfit Hn.
    set (qa := {| queue := wa; data_size := Z.of_nat (length wa) |}).
    assert (Hw1 : write_bytes wa s2 (mk_file (Kmem pa)) =
                  Returns (store s2 (Kmem pa) qa, Z.of_nat (length wa))).
    { unfold write_bytes.
      rewrite (device_write_deref _ _ _ s2 (mk_file (Kmem pa)) _ Ha2).
      rewrite queue_write_all by (simpl; lia). reflexivity. }
    set (s3 := store s2 (Kmem pa) qa) in *.
    assert (Hb3 : deref s3 (Kmem pb) = Returns empty_queue).
    { unfold s3. rewrite deref_store_ne by congruence. exact Hb2. }
    pose proof (device_write_deref always (user_buffer wb)
                  (Z.of_nat (length wb)) s3 (mk_file (Kmem pb)) _ Hb3) as Hw2.
    set (s4 := store s3 _ _) in Hw2. set (rb := snd _) in Hw2.
    assert (Ha4 : deref s4 (Kmem pa) = Returns qa).
    { rewrite (Hframe _ _ _ _ _ _ Hw2). apply deref_store. }
    assert (Hok : queue_ok qa) by (split; simpl; lia).
    pose proof (queue_read_min always n qa Hok ltac:(lia) (fun _ _ => eq_refl))
      as Hr.
    simpl in Hr. rewrite Z.min_r, Nat2Z.id in Hr by lia.
    rewrite take_ge in Hr by lia.
    exists s3, s4, rb. eexists. split; [exact Hw1|]. split; [exact Hw2|].
    apply (device_read_deref always n s4 (mk_file (Kmem pa)) qa _ _ _ Ha4 Hr).
Qed.

Lemma perhandle_isolation_witness :
  exists a b s1 s2 s3 s4 rb s5,
    device_open true (set_mode MULTI_OPEN_MODE init_state) = (s1, 0, Some a) /\
    device_open true s1 = (s2, 0, Some b) /\
    write_bytes (list_byte_of_string "data1") s2 a = Returns (s3, 5) /\
    write_bytes (list_byte_of_string "data2") s3 b = Returns (s4, rb) /\
    device_read always QUEUE_SIZE s4 a =
      Returns (s5, 5, list_byte_of_string "data1").
Proof.
  destruct (perhandle_isolation (set_mode MULTI_OPEN_MODE init_state) eq_refl)
    as (a & b & s1 & s2 & Ho1 & Ho2 & _ & _ & _ & _ & _ & _ & Hrw).
  destruct (Hrw (list_byte_of_string "data1") (list_byte_of_string "data2")
              QUEUE_SIZE)
    as (s3 & s4 & rb & s5 & Hw1 & Hw2 & Hr).
  - simpl. unfold QUEUE_SIZE. lia.
  - simpl. unfold QUEUE_SIZE. lia.
  - exists a, b, s1, s2, s3, s4, rb, s5. repeat split; assumption.
Defined.

(** ** The invariant under write and read *)

Lemma write_loop_ok km buf :
  forall (n : nat) (i : Z) (dev : queue_device),
    data_size dev = Z.of_nat (length (queue dev)) ->
    data_size dev + Z.of_nat n <= QUEUE_SIZE ->
    let '(dev', _, _) := write_loop km buf n i dev in
    data_size dev' = Z.of_nat (length (queue dev')) /\
    data_size dev' <= data_size dev + Z.of_nat n.
Proof.
  induction n as [|n IH]; intros i dev Hlen Hfit; simpl.
  - split; [exact Hlen|lia].
  - destruct (km i); [|split; [exact Hlen|lia]].
    destruct (buf i) as [c|]; [|split; [exact Hlen|lia]].
    unfold QUEUE_SIZE in Hfit. rewrite to_int_id by lia.
    specialize (IH (i + 1)
      {| queue := queue dev ++ [c]; data_size := data_size dev + 1 |}).
    simpl in IH. rewrite length_app in IH. simpl in IH.
    destruct (write_loop km buf n (i + 1) _) as [[dev' ret] j].
    destruct IH as [Hlen' Hle]; [lia|unfold QUEUE_SIZE; lia|].
    simpl. split; [exact Hlen'|lia].
Qed.

(** Every write call, however it ends, keeps the invariant. *)
Lemma queue_write_ok km buf count q :
  queue_ok q -> 0 <= count -> count + data_size q < 2 ^ 64 ->
  queue_ok (queue_write km buf count q).1.
Proof.
  intros [Hlen Hcap] Hc Hsum. unfold queue_write.
  rewrite overflow_test by lia.
  destruct (Z.gtb_spec (data_size q + count) QUEUE_SIZE) as [Hgt|Hle].
  - by split.
  - pose proof (write_loop_ok km buf (Z.to_nat count) 0 q Hlen ltac:(lia)) as H.
    destruct (write_loop km buf (Z.to_nat count) 0 q) as [[q' ret] j].
    destruct H as [Hlen' Hle']. split; simpl; [exact Hlen'|lia].
Qed.

Lemma read_loop_ok ok :
  forall (n : nat) (i : Z) (dev : queue_device) (out : list byte),
    data_size dev = Z.of_nat (length (queue dev)) ->
    data_size dev < 2 ^ 31 ->
    exists dev' ret j out',
      read_loop ok n i dev out = Returns (dev', ret, j, out') /\
      data_size dev' = Z.of_nat (length (queue dev')) /\
      data_size dev' <= data_size dev.
Proof.
  induction n as [|n IH]; intros i dev out Hlen Hint; simpl.
  - eexists _, _, _, _. split; [reflexivity|]. split; [exact Hlen|lia].
  - destruct (Z.gtb_spec (data_size dev) 0) as [Hgt|Hle].
    2:{ eexists _, _, _, _. split; [reflexivity|]. split; [exact Hlen|lia]. }
    destruct dev as [[|c rest] d]; simpl in *; [lia|].
    destruct (ok i).
    2:{ eexists _, _, _, _. split; [reflexivity|]. split; [exact Hlen|simpl; lia]. }
    destruct (IH (i + 1) {| queue := rest; data_size := to_int (d - 1) |}
                (out ++ [c]))
      as (dev' & ret & j & out' & Hr & Hlen' & Hle); simpl.
    + rewrite to_int_id by lia. lia.
    + rewrite to_int_id by lia. lia.
    + simpl in Hle. rewrite to_int_id in Hle by lia.
      eexists _, _, _, _. split; [exact Hr|]. split; [exact Hlen'|lia].
Qed.

(** Every read call on a queue that satisfies the invariant returns, and
    keeps the invariant, however it ends. *)
Lemma queue_read_ok ok count q :
  queue_ok q ->
  exists q' r out,
    queue_read ok count q = Returns (q', r, out) /\ queue_ok q'.
Proof.
  intros [Hlen Hcap]. unfold queue_read, QUEUE_SIZE in *.
  destruct (read_loop_ok ok (Z.to_nat count) 0 q [] Hlen ltac:(lia))
    as (q' & ret & j & out & Hr & Hlen' & Hle).
  rewrite Hr. simpl. eexists _, _, _. split; [reflexivity|].
  split; [exact Hlen'|unfold QUEUE_SIZE; lia].
Qed.

(** ** Release *)

Lemma release_loop_nil l : release_loop l = [].
Proof. induction l as [|c l IH]; [reflexivity|exact IH]. Qed.

(** Outside multi-open mode (and with the lock held in single-open mode), a
    release unlinks every element of the file's queue and leaves its
    [data_size] as it found it. *)
Lemma device_release_default s f q :
  device_mode s = DEFAULT_MODE ->
  deref s (private_data f) = Returns q ->
  device_release s f =
  Returns (store s (private_data f)
             {| queue := []; data_size := data_size q |}, 0).
Proof.
  intros Hmode Hq. unfold device_release. rewrite Hmode. simpl.
  rewrite Hq. simpl. rewrite device_mode_store, Hmode. simpl.
  by rewrite release_loop_nil.
Qed.

(** C4: in the default (shared) mode, a file is opened, "temporary" is
    written through it and it is released.  The release unlinks the nine
    elements of the shared queue but [data_size] still says 9, so the read
    of a freshly opened file enters its loop and takes the first entry of
    an empty list: the call has no defined result, where 0 bytes were
    promised. *)
Theorem read_after_release_undefined :
  let A := mk_file DefaultQueue in
  exists s1 s2,
    device_open true init_state = (init_state, 0, Some A) /\
    write_bytes (list_byte_of_string "temporary") init_state A =
      Returns (s1, 9) /\
    device_release s1 A = Returns (s2, 0) /\
    default_queue s2 = {| queue := []; data_size := 9 |} /\
    device_open true s2 = (s2, 0, Some A) /\
    device_read always 100 s2 A = Undefined.
Proof.
  simpl. eexists _, _.
  split; [reflexivity|]. split; [vm_compute; reflexivity|].
  split; [vm_compute; reflexivity|].
  split; [reflexivity|]. split; reflexivity.
Qed.

(** C5: in the default mode, one byte is written and the file is released.
    The queue is left with no element linked and [data_size = 1]: the
    counter is not the number of linked elements. *)
Theorem release_breaks_counter :
  let A := mk_file DefaultQueue in
  exists s1 s2,
    write_bytes [x61] init_state A = Returns (s1, 1) /\
    queue_ok (default_queue s1) /\
    device_release s1 A = Returns (s2, 0) /\
    default_queue s2 = {| queue := []; data_size := 1 |} /\
    ~ queue_ok (default_queue s2).
Proof.
  simpl. eexists _, _.
  split; [vm_compute; reflexivity|].
  split; [split; simpl; unfold QUEUE_SIZE; lia|].
  split; [vm_compute; reflexivity|].
  split; [reflexivity|].
  intros [Hlen _]. simpl in Hlen. lia.
Qed.

(** C3: the mode is switched to single-open and a file is opened, which
    takes the lock.  Released at once, the file gives the lock back.
    Released after the mode has been switched to the default, it does not:
    [device_release] tests the mode of the moment, skips [mutex_unlock],
    and the lock stays held with no file open, so that every later open in
    single-open mode returns -EBUSY.  The other way round, a file opened in
    the default mode and released after a switch to multi-open mode has
    [kfree] called on the static [default_queue]. *)
Theorem release_reads_current_mode :
  let A := mk_file DefaultQueue in
  let s0 := (device_ioctl 1 init_state).1 in
  exists s1,
    device_open true s0 = (s1, 0, Some A) /\
    single_open_lock s1 = true /\
    (exists s2, device_release s1 A = Returns (s2, 0) /\
                single_open_lock s2 = false /\
                (device_open true s2).1.2 = 0) /\
    (exists s2, device_release (device_ioctl 0 s1).1 A = Returns (s2, 0) /\
                single_open_lock s2 = true /\
                (device_open true (device_ioctl 1 s2).1).1.2 = - EBUSY) /\
    device_release (device_ioctl 2 init_state).1 A = Undefined.
Proof.
  simpl. eexists. split; [reflexivity|]. split; [reflexivity|].
  split; [|split].
  - eexists. split; [reflexivity|]. split; reflexivity.
  - eexists. split; [reflexivity|]. split; reflexivity.
  - reflexivity.
Qed.

(** * Further properties of the driver *)

(** ** The mode switch *)

(** X1: [device_ioctl] accepts the commands 0, 1 and 2, makes the command
    the mode and returns 0; any other command returns -EINVAL and leaves
    the state as it was.  In no case does it touch the lock, the shared
    queue or the per-handle queues. *)
Theorem device_ioctl_cases cmd s :
  let '(s', r) := device_ioctl cmd s in
  single_open_lock s' = single_open_lock s /\
  default_queue s' = default_queue s /\
  kheap s' = kheap s /\
  (cmd = 0 \/ cmd = 1 \/ cmd = 2 -> r = 0 /\ device_mode s' = cmd) /\
  (~ (cmd = 0 \/ cmd = 1 \/ cmd = 2) -> r = - EINVAL /\ s' = s).
Proof.
  unfold device_ioctl.
  destruct (Z.eqb_spec cmd 0) as [->|H0]; [simpl; intuition lia|].
  destruct (Z.eqb_spec cmd 1) as [->|H1]; [simpl; intuition lia|].
  destruct (Z.eqb_spec cmd 2) as [->|H2]; [simpl; intuition lia|].
  simpl. intuition lia.
Qed.

(** ** Open *)

(** X2: [device_open] returns 0, -EBUSY or -ENOMEM.  It returns -EBUSY
    exactly in single-open mode with the lock held, and -ENOMEM exactly in
    multi-open mode when the queue cannot be allocated; a failed open
    yields no file and changes nothing.  A successful open keeps the mode
    and the shared queue, is bound to the shared queue exactly when the
    mode is not multi-open, and outside the single-open and multi-open
    modes changes nothing at all. *)
Theorem device_open_cases kz s :
  let '(s', r, f) := device_open kz s in
  (r = 0 \/ r = - EBUSY \/ r = - ENOMEM) /\
  (r = - EBUSY <->
   device_mode s = SINGLE_OPEN_MODE /\ single_open_lock s = true) /\
  (r = - ENOMEM <-> device_mode s = MULTI_OPEN_MODE /\ kz = false) /\
  (r <> 0 -> s' = s /\ f = None) /\
  (r = 0 ->
   device_mode s' = device_mode s /\
   default_queue s' = default_queue s /\
   (exists f', f = Some f' /\
      (private_data f' = DefaultQueue <->
       device_mode s <> MULTI_OPEN_MODE)) /\
   (device_mode s <> SINGLE_OPEN_MODE ->
    device_mode s <> MULTI_OPEN_MODE -> s' = s)).
Proof.
  unfold device_open, SINGLE_OPEN_MODE, MULTI_OPEN_MODE, EBUSY, ENOMEM.
  destruct (Z.eqb_spec (device_mode s) 1) as [H1|H1].
  - destruct (single_open_lock s) eqn:Hl; simpl.
    + repeat split; try (intros; lia); try tauto; intros; try lia;
        try congruence; intuition (congruence || lia).
    + rewrite H1. simpl.
      repeat split; try (intros; lia); intuition (congruence || lia || eauto).
      eexists. split; [reflexivity|]. simpl. intuition lia.
  - simpl. destruct (Z.eqb_spec (device_mode s) 2) as [H2|H2].
    + destruct kz; simpl.
      * repeat split; try (intros; lia);
          intuition (congruence || lia || eauto).
        eexists. split; [reflexivity|]. simpl. intuition congruence.
      * repeat split; try (intros; lia);
          intuition (congruence || lia || eauto).
    + repeat split; try (intros; lia);
        intuition (congruence || lia || eauto).
      eexists. split; [reflexivity|]. simpl. intuition lia.
Qed.

(** ** What a call touches *)

Lemma device_read_frame ok count s f s' r out p :
  device_read ok count s f = Returns (s', r, out) ->
  p <> private_data f ->
  deref s' p = deref s p.
Proof.
  unfold device_read. intros Hr Hne.
  destruct (deref s (private_data f)) as [q|]; simpl in Hr; [|discriminate].
  destruct (queue_read ok count q) as [[[q' v] o]|]; simpl in Hr;
    [|discriminate].
  injection Hr as <- <- <-. apply deref_store_ne. congruence.
Qed.

(** X3: a write or a read that returns has changed neither the mode nor
    the lock nor any queue other than the one its file is bound to,
    whatever the allocator and the caller's buffer do. *)
Theorem read_write_frame km buf ok count s f :
  (forall s' r,
     device_write km buf count s f = Returns (s', r) ->
     device_mode s' = device_mode s /\
     single_open_lock s' = single_open_lock s /\
     forall p, p <> private_data f -> deref s' p = deref s p) /\
  (forall s' r out,
     device_read ok count s f = Returns (s', r, out) ->
     device_mode s' = device_mode s /\
     single_open_lock s' = single_open_lock s /\
     forall p, p <> private_data f -> deref s' p = deref s p).
Proof.
  split.
  - intros s' r Hw. split; [|split].
    + unfold device_write in Hw.
      destruct (deref s (private_data f)) as [q|]; simpl in Hw; [|discriminate].
      destruct (queue_write km buf count q) as [q' v].
      injection Hw as <- <-. apply device_mode_store.
    + unfold device_write in Hw.
      destruct (deref s (private_data f)) as [q|]; simpl in Hw; [|discriminate].
      destruct (queue_write km buf count q) as [q' v].
      injection Hw as <- <-. apply single_open_lock_store.
    + intros p Hp. by eapply device_write_frame.
  - intros s' r out Hr. split; [|split].
    + unfold device_read in Hr.
      destruct (deref s (private_data f)) as [q|]; simpl in Hr; [|discriminate].
      destruct (queue_read ok count q) as [[[q' v] o]|]; simpl in Hr;
        [|discriminate].
      injection Hr as <- <- <-. apply device_mode_store.
    + unfold device_read in Hr.
      destruct (deref s (private_data f)) as [q|]; simpl in Hr; [|discriminate].
      destruct (queue_read ok count q) as [[[q' v] o]|]; simpl in Hr;
        [|discriminate].
      injection Hr as <- <- <-. apply single_open_lock_store.
    + intros p Hp. by eapply device_read_frame.
Qed.

(** ** Calls of length zero *)

(** X4: a write of no bytes returns 0 and changes nothing, also on a full
    queue, where it is not an overflow; a read of no bytes returns 0 with
    no byte and changes nothing.  Neither looks at the allocator or at the
    caller's buffer. *)
Theorem zero_length_calls km buf ok s f q :
  deref s (private_data f) = Returns q ->
  0 <= data_size q <= QUEUE_SIZE ->
  device_write km buf 0 s f = Returns (s, 0) /\
  device_read ok 0 s f = Returns (s, 0, []).
Proof.
  intros Hq Hd. split.
  - rewrite (device_write_deref _ _ _ _ _ _ Hq). unfold queue_write.
    rewrite overflow_test by (unfold QUEUE_SIZE in *; lia).
    destruct (Z.gtb_spec (data_size q + 0) QUEUE_SIZE) as [Hgt|_]; [lia|].
    simpl. by rewrite (store_same _ _ _ Hq).
  - unfold device_read. rewrite Hq. simpl.
    by rewrite (store_same _ _ _ Hq).
Qed.

Lemma zero_length_calls_witness :
  device_write (fun _ => false) (fun _ => None) 0
    (store init_state DefaultQueue
       {| queue := repeat x00 1000; data_size := 1000 |})
    (mk_file DefaultQueue) =
  Returns (store init_state DefaultQueue
             {| queue := repeat x00 1000; data_size := 1000 |}, 0).
Proof.
  apply (zero_length_calls (fun _ => false) (fun _ => None) (fun _ => false)
           (store init_state DefaultQueue
              {| queue := repeat x00 1000; data_size := 1000 |})
           (mk_file DefaultQueue)
           {| queue := repeat x00 1000; data_size := 1000 |}).
  - reflexivity.
  - simpl. unfold QUEUE_SIZE. lia.
Defined.

(** ** Every way a write can end *)

Lemma write_loop_spec km buf :
  forall (n : nat) (i : Z) (dev : queue_device),
    - 2 ^ 31 <= data_size dev ->
    data_size dev + Z.of_nat n < 2 ^ 31 ->
    exists l : list byte,
      write_loop km buf n i dev =
        ({| queue := queue dev ++ l;
            data_size := data_size dev + Z.of_nat (length l) |},
         (if (length l =? n)%nat then 0
          else if km (i + Z.of_nat (length l)) then - EFAULT else - ENOMEM),
         i + Z.of_nat (length l)) /\
      (length l <= n)%nat /\
      (forall k : nat, (k < length l)%nat -> buf (i + Z.of_nat k) = l !! k).
Proof.
  induction n as [|n IH]; intros i dev Hlo Hhi; simpl.
  - exists []. simpl. rewrite app_nil_r, !Z.add_0_r.
    destruct dev; simpl. split; [reflexivity|]. split; [lia|]. intros; lia.
  - destruct (km i) eqn:Hkm.
    + destruct (buf i) as [c|] eqn:Hb.
      * rewrite to_int_id by lia.
        destruct (IH (i + 1)
          {| queue := queue dev ++ [c]; data_size := data_size dev + 1 |})
          as (l & Hw & Hlen & Hbuf); simpl; [lia|lia|].
        simpl in Hw.
        exists (c :: l). simpl length. rewrite Hw. split; [|split].
        -- rewrite <- app_assoc. simpl.
           replace (i + 1 + Z.of_nat (length l))
             with (i + Z.of_nat (S (length l))) by lia.
           replace (data_size dev + 1 + Z.of_nat (length l))
             with (data_size dev + Z.of_nat (S (length l))) by lia.
           reflexivity.
        -- lia.
        -- intros [|k] Hk; simpl.
           ++ rewrite Z.add_0_r. exact Hb.
           ++ replace (i + Z.of_nat (S k)) with (i + 1 + Z.of_nat k) by lia.
              apply Hbuf. lia.
      * exists []. simpl. rewrite app_nil_r, !Z.add_0_r, Hkm.
        destruct dev; simpl. split; [reflexivity|]. split; [lia|]. intros; lia.
    + exists []. simpl. rewrite app_nil_r, !Z.add_0_r, Hkm.
      destruct dev; simpl. split; [reflexivity|]. split; [lia|]. intros; lia.
Qed.

(** X5: whatever the allocator and the caller's buffer do, a write call
    only appends: the queue afterwards is the queue before followed by the
    bytes [l] the call copied from the start of the buffer, and [data_size]
    has grown by their number.  The call returns [count] when it appended
    all [count] bytes, -ENOSPC when it was refused and appended none, and
    -ENOMEM or -EFAULT when it stopped early; it never returns a short
    count, and it never takes [data_size] past [QUEUE_SIZE]. *)
Theorem write_appends_or_fails km buf count s f q :
  deref s (private_data f) = Returns q ->
  0 <= data_size q <= QUEUE_SIZE ->
  0 <= count -> count + data_size q < 2 ^ 64 ->
  exists (l : list byte) r,
    device_write km buf count s f =
      Returns (store s (private_data f)
                 {| queue := queue q ++ l;
                    data_size := data_size q + Z.of_nat (length l) |}, r) /\
    (forall k : nat, (k < length l)%nat -> buf (Z.of_nat k) = l !! k) /\
    data_size q + Z.of_nat (length l) <= QUEUE_SIZE /\
    (r = count /\ Z.of_nat (length l) = count \/
     r = - ENOSPC /\ l = [] /\ data_size q + count > QUEUE_SIZE \/
     (r = - ENOMEM \/ r = - EFAULT) /\ Z.of_nat (length l) < count).
Proof.
  intros Hq Hd Hc Hsum. unfold QUEUE_SIZE in Hd.
  rewrite (device_write_deref _ _ _ _ _ _ Hq). unfold queue_write.
  rewrite overflow_test by lia.
  destruct (Z.gtb_spec (data_size q + count) QUEUE_SIZE) as [Hgt|Hle].
  - exists [], (- ENOSPC). simpl. rewrite app_nil_r, Z.add_0_r.
    destruct q as [qs d]; simpl in *.
    split; [reflexivity|]. split; [intros; lia|].
    split; [unfold QUEUE_SIZE; lia|]. right; left.
    repeat split. unfold QUEUE_SIZE in *. lia.
  - unfold QUEUE_SIZE in Hle.
    destruct (write_loop_spec km buf (Z.to_nat count) 0 q)
      as (l & Hw & Hlen & Hbuf); [lia|lia|].
    rewrite Hw. simpl. exists l. eexists. split; [reflexivity|].
    split; [exact Hbuf|]. split; [unfold QUEUE_SIZE; lia|].
    destruct (Nat.eqb_spec (length l) (Z.to_nat count)) as [Heq|Hne].
    + left. simpl. rewrite to_ssize_t_id by lia. lia.
    + right; right. split; [|lia].
      unfold EFAULT, ENOMEM.
      destruct (km (0 + Z.of_nat (length l))); simpl; auto.
Qed.

Lemma write_appends_or_fails_witness :
  exists (l : list byte) r,
    device_write always (fun k => if k <? 1 then Some x61 else None) 2
      init_state (mk_file DefaultQueue) =
    Returns (store init_state DefaultQueue
               {| queue := [] ++ l; data_size := 0 + Z.of_nat (length l) |}, r)
    /\ Z.of_nat (length l) <= 2.
Proof.
  destruct (write_appends_or_fails always
              (fun k => if k <? 1 then Some x61 else None) 2
              init_state (mk_file DefaultQueue) empty_queue)
    as (l & r & Hw & _ & _ & Hr).
  - reflexivity.
  - simpl. unfold QUEUE_SIZE. lia.
  - lia.
  - simpl. lia.
  - exists l, r. split; [exact Hw|].
    destruct Hr as [[_ H]|[(_ & -> & _)|[_ H]]]; simpl; lia.
Defined.

(** ** Every way a read can end *)

Lemma read_loop_spec ok :
  forall (n : nat) (i : Z) (dev : queue_device) (out : list byte),
    data_size dev = Z.of_nat (length (queue dev)) ->
    data_size dev < 2 ^ 31 ->
    exists (l : list byte) dev' ret,
      read_loop ok n i dev out =
        Returns (dev', ret, i + Z.of_nat (length l), out ++ l) /\
      queue dev = l ++ queue dev' /\
      data_size dev' = data_size dev - Z.of_nat (length l) /\
      (length l <= n)%nat /\
      (ret = 0 \/ ret = - EFAULT).
Proof.
  induction n as [|n IH]; intros i dev out Hlen Hint; simpl.
  - exists [], dev, 0. rewrite app_nil_r, Z.add_0_r, Z.sub_0_r. simpl.
    repeat split; auto.
  - destruct (Z.gtb_spec (data_size dev) 0) as [Hgt|Hle].
    2:{ exists [], dev, 0. rewrite app_nil_r, Z.add_0_r, Z.sub_0_r. simpl.
        repeat split; auto; lia. }
    destruct dev as [[|c rest] d]; simpl in *; [lia|].
    destruct (ok i).
    2:{ exists [], {| queue := c :: rest; data_size := d |}, (- EFAULT).
        rewrite app_nil_r, Z.add_0_r, Z.sub_0_r. simpl.
        repeat split; auto; lia. }
    rewrite to_int_id by lia.
    destruct (IH (i + 1) {| queue := rest; data_size := d - 1 |} (out ++ [c]))
      as (l & dev' & ret & Hr & Hq & Hd & Hl & Hret); simpl; [lia|lia|].
    simpl in Hq, Hd.
    exists (c :: l), dev', ret. rewrite Hr. simpl length.
    rewrite <- app_assoc. simpl.
    replace (i + 1 + Z.of_nat (length l))
      with (i + Z.of_nat (S (length l))) by lia.
    repeat split; [by rewrite Hq|lia|lia|exact Hret].
Qed.

(** X6: on a queue that satisfies its invariant, a read call always
    returns, whatever the caller's buffer does.  The bytes it delivered
    followed by the bytes still queued are the queue as it was: no byte is
    dropped, duplicated or reordered, and [data_size] has gone down by the
    number delivered.  It delivers at most [count] bytes, returns their
    number or -EFAULT, and leaves the invariant in place. *)
Theorem read_delivers_or_keeps ok count s f q :
  deref s (private_data f) = Returns q ->
  queue_ok q -> 0 <= count ->
  exists q' r (out : list byte),
    device_read ok count s f =
      Returns (store s (private_data f) q', r, out) /\
    queue q = out ++ queue q' /\
    data_size q' = data_size q - Z.of_nat (length out) /\
    queue_ok q' /\
    Z.of_nat (length out) <= count /\
    (r = Z.of_nat (length out) \/ r = - EFAULT).
Proof.
  intros Hq [Hlen Hcap] Hc. unfold QUEUE_SIZE in Hcap.
  destruct (read_loop_spec ok (Z.to_nat count) 0 q [] Hlen ltac:(lia))
    as (l & q' & ret & Hr & Hsplit & Hd & Hl & Hret).
  simpl in Hr.
  assert (Hl' : Z.of_nat (length l) <= data_size q).
  { rewrite Hlen, Hsplit, length_app. lia. }
  exists q', (if ret =? 0 then to_ssize_t (Z.of_nat (length l)) else ret), l.
  split; [|split; [exact Hsplit|split; [exact Hd|split; [|split; [lia|]]]]].
  - apply (device_read_deref _ _ _ _ _ _ _ _ Hq).
    unfold queue_read. rewrite Hr. reflexivity.
  - split; [|unfold QUEUE_SIZE; lia].
    rewrite Hd, Hlen. rewrite Hsplit at 1. rewrite length_app. lia.
  - destruct Hret as [-> | ->]; simpl; [left|right; reflexivity].
    apply to_ssize_t_id. lia.
Qed.

Lemma read_delivers_or_keeps_witness :
  exists q' r (out : list byte),
    device_read (fun k => k <? 1) 3
      (store init_state DefaultQueue
         {| queue := [x61; x62; x63]; data_size := 3 |})
      (mk_file DefaultQueue) =
      Returns (store (store init_state DefaultQueue
                        {| queue := [x61; x62; x63]; data_size := 3 |})
                 DefaultQueue q', r, out) /\
    [x61; x62; x63] = out ++ queue q'.
Proof.
  destruct (read_delivers_or_keeps (fun k => k <? 1) 3
    (store init_state DefaultQueue
       {| queue := [x61; x62; x63]; data_size := 3 |})
    (mk_file DefaultQueue) {| queue := [x61; x62; x63]; data_size := 3 |})
    as (q' & r & out & Hr & Hsplit & _).
  - reflexivity.
  - split; simpl; unfold QUEUE_SIZE; lia.
  - lia.
  - exists q', r, out. split; [exact Hr|exact Hsplit].
Defined.

(** ** Files that share a queue *)

(** X7: when several files are bound to one queue, as all files are outside
    multi-open mode, their writes land on it in the order of the calls, not
    file by file: after [wa] is written through one file and [wb] through
    another, a read through a third returns what was queued before, then
    [wa], then [wb]. *)
Theorem shared_writes_in_call_order (wa wb : list byte) s f g h q :
  private_data g = private_data f ->
  private_data h = private_data f ->
  deref s (private_data f) = Returns q ->
  queue_ok q ->
  data_size q + Z.of_nat (length wa) + Z.of_nat (length wb) <= QUEUE_SIZE ->
  exists s1 s2,
    write_bytes wa s f = Returns (s1, Z.of_nat (length wa)) /\
    write_bytes wb s1 g = Returns (s2, Z.of_nat (length wb)) /\
    device_read always QUEUE_SIZE s2 h =
      Returns (store s2 (private_data h) empty_queue,
               data_size q + Z.of_nat (length wa) + Z.of_nat (length wb),
               queue q ++ wa ++ wb).
Proof.
  intros Hg Hh Hq Hok Hfit. pose proof Hok as [Hlen Hcap].
  set (q1 := {| queue := queue q ++ wa;
                data_size := data_size q + Z.of_nat (length wa) |}).
  set (q2 := {| queue := queue q1 ++ wb;
                data_size := data_size q1 + Z.of_nat (length wb) |}).
  set (s1 := store s (private_data f) q1).
  set (s2 := store s1 (private_data g) q2).
  assert (Hok1 : queue_ok q1) by (apply queue_ok_after_write; [done|lia]).
  assert (Hok2 : queue_ok q2).
  { apply queue_ok_after_write; [done|simpl; lia]. }
  assert (Hq1 : deref s1 (private_data g) = Returns q1).
  { rewrite Hg. apply deref_store. }
  assert (Hq2 : deref s2 (private_data h) = Returns q2).
  { rewrite Hh, <- Hg. apply deref_store. }
  exists s1, s2. split; [|split].
  - unfold write_bytes. rewrite (device_write_deref _ _ _ _ _ _ Hq).
    rewrite queue_write_all by lia. reflexivity.
  - unfold write_bytes. rewrite (device_write_deref _ _ _ _ _ _ Hq1).
    rewrite queue_write_all by (simpl; lia). reflexivity.
  - pose proof Hok2 as [Hlen2 Hcap2].
    pose proof (queue_read_min always QUEUE_SIZE q2 Hok2
                  ltac:(unfold QUEUE_SIZE; lia) (fun _ _ => eq_refl)) as Hr.
    cbv zeta in Hr. rewrite Z.min_r in Hr by lia.
    assert (Hm : Z.to_nat (data_size q2) = length (queue q2)) by lia.
    rewrite Hm, take_ge, drop_ge in Hr by lia.
    rewrite (device_read_deref _ _ _ _ _ _ _ _ Hq2 Hr).
    assert (He : {| queue := [];
                    data_size := data_size q2 - Z.of_nat (length (queue q2)) |}
                 = empty_queue) by (apply queue_device_eq; [reflexivity|lia]).
    rewrite He, <- Hlen2. simpl. by rewrite <- app_assoc.
Qed.

Lemma shared_writes_in_call_order_witness :
  exists s1 s2,
    write_bytes [x61] init_state (mk_file DefaultQueue) = Returns (s1, 1) /\
    write_bytes [x62] s1 (mk_file DefaultQueue) = Returns (s2, 1) /\
    device_read always QUEUE_SIZE s2 (mk_file DefaultQueue) =
      Returns (store s2 DefaultQueue empty_queue, 2, [x61; x62]).
Proof.
  destruct (shared_writes_in_call_order [x61] [x62] init_state
              (mk_file DefaultQueue) (mk_file DefaultQueue)
              (mk_file DefaultQueue) empty_queue eq_refl eq_refl eq_refl)
    as (s1 & s2 & Hw1 & Hw2 & Hr).
  - split; simpl; unfold QUEUE_SIZE; lia.
  - simpl. unfold QUEUE_SIZE. lia.
  - exists s1, s2. split; [exact Hw1|]. split; [exact Hw2|exact Hr].
Defined.

(** ** Single-open mode over time *)

Lemma device_open_single kz s :
  device_mode s = SINGLE_OPEN_MODE ->
  device_open kz s =
  if single_open_lock s then (s, - EBUSY, None)
  else (set_lock true s, 0, Some (mk_file DefaultQueue)).
Proof.
  intros Hmode. unfold device_open. rewrite Hmode. simpl.
  destruct (single_open_lock s); simpl; [reflexivity|].
  rewrite Hmode. reflexivity.
Qed.

Lemma run_calls_single cs :
  forall s opened,
    device_mode s = SINGLE_OPEN_MODE ->
    (opened = [] /\ single_open_lock s = false \/
     opened = [mk_file DefaultQueue] /\ single_open_lock s = true) ->
    exists s' opened',
      run_calls cs s opened = Returns (s', opened') /\
      device_mode s' = SINGLE_OPEN_MODE /\
      (opened' = [] /\ single_open_lock s' = false \/
       opened' = [mk_file DefaultQueue] /\ single_open_lock s' = true).
Proof.
  induction cs as [|c cs IH]; intros s opened Hmode Hinv; simpl.
  - eauto.
  - destruct c.
    + rewrite (device_open_single true s Hmode).
      destruct Hinv as [[-> Hl]|[-> Hl]]; rewrite Hl.
      * apply IH; [exact Hmode|]. right. auto.
      * apply IH; [exact Hmode|]. right. auto.
    + destruct Hinv as [[-> Hl]|[-> Hl]].
      * apply IH; [exact Hmode|]. left. auto.
      * unfold device_release, mutex_unlock. rewrite Hmode, Hl. simpl.
        rewrite Hmode. simpl. apply IH; [reflexivity|]. left. auto.
Qed.

(** X8: in single-open mode, starting with the lock free and no file open,
    whatever sequence of opens and closes the callers make, every call
    returns, at most one file is open afterwards, and the lock is held
    exactly when one is. *)
Theorem single_open_at_most_one cs s :
  device_mode s = SINGLE_OPEN_MODE ->
  single_open_lock s = false ->
  exists s' opened,
    run_calls cs s [] = Returns (s', opened) /\
    (length opened <= 1)%nat /\
    (single_open_lock s' = true <-> length opened = 1%nat).
Proof.
  intros Hmode Hlock.
  destruct (run_calls_single cs s [] Hmode) as (s' & opened & Hr & _ & Hinv).
  { left. auto. }
  exists s', opened. split; [exact Hr|].
  destruct Hinv as [[-> Hl]|[-> Hl]]; rewrite Hl; simpl.
  - split; [lia|]. split; [discriminate|lia].
  - split; [lia|]. split; auto.
Qed.

Lemma single_open_at_most_one_witness :
  exists s' opened,
    run_calls [Open; Open; Close; Open; Open]
      (set_mode SINGLE_OPEN_MODE init_state) [] = Returns (s', opened) /\
    (length opened <= 1)%nat.
Proof.
  destruct (single_open_at_most_one [Open; Open; Close; Open; Open]
              (set_mode SINGLE_OPEN_MODE init_state) eq_refl eq_refl)
    as (s' & opened & Hr & Hlen & _).
  exists s', opened. split; [exact Hr|exact Hlen].
Defined.

(** ** Multi-open mode over time *)

Lemma open_n_multi n :
  forall s,
    device_mode s = MULTI_OPEN_MODE ->
    exists s' fs,
      open_n n s = (s', fs) /\
      length fs = n /\
      device_mode s' = MULTI_OPEN_MODE /\
      default_queue s' = default_queue s /\
      kheap s ⊆ kheap s' /\
      NoDup (private_data <$> fs) /\
      forall f, f ∈ fs ->
        exists p, private_data f = Kmem p /\
                  kheap s !! p = None /\
                  kheap s' !! p = Some empty_queue.
Proof.
  induction n as [|n IH]; intros s Hmode; simpl.
  - exists s, []. repeat split; auto.
    + apply NoDup_nil. done.
    + intros f Hf. by apply elem_of_nil in Hf.
  - rewrite (device_open_multi s Hmode).
    set (p0 := fresh (dom (kheap s))).
    set (s1 := set_kheap (<[p0 := empty_queue]> (kheap s)) s).
    assert (Hp0 : kheap s !! p0 = None).
    { apply not_elem_of_dom. apply is_fresh. }
    destruct (IH s1 Hmode) as (s' & fs & Ho & Hlen & Hm & Hdq & Hsub & Hnd & Hfs).
    rewrite Ho. exists s', (mk_file (Kmem p0) :: fs).
    assert (Hp1 : kheap s' !! p0 = Some empty_queue).
    { apply (lookup_weaken _ _ _ _ (lookup_insert_eq (kheap s) p0 empty_queue)
               Hsub). }
    split; [reflexivity|]. split; [simpl; lia|]. split; [exact Hm|].
    split; [exact Hdq|]. split; [|split].
    + transitivity (kheap s1); [|exact Hsub].
      by apply insert_subseteq.
    + rewrite fmap_cons. apply NoDup_cons. split; [|exact Hnd].
      intros Hin. apply list_elem_of_fmap in Hin as (f & Hf & Hin).
      destruct (Hfs f Hin) as (p & Hp & Hnone & _).
      simpl in Hf. rewrite Hp in Hf. injection Hf as <-.
      simpl in Hnone. rewrite lookup_insert_eq in Hnone. discriminate.
    + intros f Hin. apply elem_of_cons in Hin as [->|Hin].
      * exists p0. auto.
      * destruct (Hfs f Hin) as (p & Hp & Hnone & Hsome).
        exists p. split; [exact Hp|]. split; [|exact Hsome].
        simpl in Hnone. destruct (decide (p0 = p)) as [->|Hne].
        -- rewrite lookup_insert_eq in Hnone. discriminate.
        -- by rewrite lookup_insert_ne in Hnone.
Qed.

(** X9: in multi-open mode, any number of opens in a row all succeed (the
    allocator permitting) and return files bound to pairwise distinct
    blocks, none of which was live before; each is an empty queue, and the
    queues that were live before, like the shared queue, are untouched. *)
Theorem multi_opens_are_distinct n s :
  device_mode s = MULTI_OPEN_MODE ->
  exists s' fs,
    open_n n s = (s', fs) /\
    length fs = n /\
    NoDup (private_data <$> fs) /\
    (forall f, f ∈ fs ->
       deref s (private_data f) = Undefined /\
       deref s' (private_data f) = Returns empty_queue) /\
    default_queue s' = default_queue s /\
    (forall p q, kheap s !! p = Some q -> kheap s' !! p = Some q).
Proof.
  intros Hmode.
  destruct (open_n_multi n s Hmode)
    as (s' & fs & Ho & Hlen & _ & Hdq & Hsub & Hnd & Hfs).
  exists s', fs. split; [exact Ho|]. split; [exact Hlen|].
  split; [exact Hnd|]. split; [|split; [exact Hdq|]].
  - intros f Hin. destruct (Hfs f Hin) as (p & -> & Hnone & Hsome).
    simpl. by rewrite Hnone, Hsome.
  - intros p q Hp. by apply (lookup_weaken _ _ _ _ Hp Hsub).
Qed.

Lemma multi_opens_are_distinct_witness :
  exists s' fs,
    open_n 3 (set_mode MULTI_OPEN_MODE init_state) = (s', fs) /\
    length fs = 3%nat /\
    NoDup (private_data <$> fs).
Proof.
  destruct (multi_opens_are_distinct 3 (set_mode MULTI_OPEN_MODE init_state)
              eq_refl) as (s' & fs & Ho & Hlen & Hnd & _).
  exists s', fs. split; [exact Ho|]. split; [exact Hlen|exact Hnd].
Defined.

(** X10: in multi-open mode, an open, a write through the new file, however
    it ends, and the release of the file leave the kernel state exactly as
    it was before the open: the queue, with whatever was written to it, is
    given back whole. *)
Theorem multi_open_write_release km buf count s :
  device_mode s = MULTI_OPEN_MODE ->
  exists f s1 s2 r,
    device_open true s = (s1, 0, Some f) /\
    device_write km buf count s1 f = Returns (s2, r) /\
    device_release s2 f = Returns (s, 0).
Proof.
  intros Hmode. rewrite (device_open_multi s Hmode).
  set (p := fresh (dom (kheap s))).
  assert (Hp : kheap s !! p = None).
  { apply not_elem_of_dom. apply is_fresh. }
  set (s1 := set_kheap (<[p := empty_queue]> (kheap s)) s).
  assert (Hq1 : deref s1 (private_data (mk_file (Kmem p))) = Returns empty_queue).
  { simpl. by rewrite lookup_insert_eq. }
  pose proof (device_write_deref km buf count s1 (mk_file (Kmem p)) _ Hq1) as Hw.
  set (q' := (queue_write km buf count empty_queue).1) in Hw.
  exists (mk_file (Kmem p)), s1. eexists _, _.
  split; [reflexivity|]. split; [exact Hw|].
  unfold device_release. simpl. rewrite Hmode. simpl.
  rewrite lookup_insert_eq. simpl. rewrite Hmode. simpl.
  rewrite lookup_insert_eq. simpl.
  unfold set_kheap. simpl.
  rewrite !delete_insert_eq, (delete_id _ _ Hp).
  destruct s; reflexivity.
Qed.

Lemma multi_open_write_release_witness :
  exists f s1 s2 r,
    device_open true (set_mode MULTI_OPEN_MODE init_state) = (s1, 0, Some f) /\
    device_write always (user_buffer [x61; x62]) 2 s1 f = Returns (s2, r) /\
    device_release s2 f = Returns (set_mode MULTI_OPEN_MODE init_state, 0).
Proof.
  apply (multi_open_write_release always (user_buffer [x61; x62]) 2
           (set_mode MULTI_OPEN_MODE init_state)).
  reflexivity.
Defined.

(** X11: in multi-open mode, releasing a file frees its own block and
    nothing else: another file's queue and the shared queue are as they
    were, while the released file's block is gone, so that a later read,
    write or release through it has no defined result. *)
Theorem multi_release_frees_own_block s (a b : nat) qa qb :
  device_mode s = MULTI_OPEN_MODE ->
  a <> b ->
  kheap s !! a = Some qa ->
  kheap s !! b = Some qb ->
  exists s',
    device_release s (mk_file (Kmem a)) = Returns (s', 0) /\
    kheap s' = delete a (kheap s) /\
    deref s' (Kmem b) = Returns qb /\
    default_queue s' = default_queue s /\
    (forall ok n, device_read ok n s' (mk_file (Kmem a)) = Undefined) /\
    (forall km buf n, device_write km buf n s' (mk_file (Kmem a)) = Undefined) /\
    device_release s' (mk_file (Kmem a)) = Undefined.
Proof.
  intros Hmode Hne Ha Hb.
  unfold device_release. simpl. rewrite Hmode. simpl.
  rewrite Ha. simpl. rewrite Hmode. simpl.
  rewrite lookup_insert_eq. simpl.
  eexists. split; [reflexivity|]. simpl.
  rewrite delete_insert_eq.
  split; [reflexivity|]. split; [|split; [reflexivity|]].
  - rewrite lookup_delete_ne by done. by rewrite Hb.
  - split; [|split].
    + intros ok n. unfold device_read. simpl.
      by rewrite lookup_delete_eq.
    + intros km buf n. unfold device_write. simpl.
      by rewrite lookup_delete_eq.
    + rewrite Hmode. simpl. by rewrite lookup_delete_eq.
Qed.

Lemma multi_release_frees_own_block_witness :
  exists s',
    device_release
      (set_kheap (<[0%nat := empty_queue]> (<[1%nat := empty_queue]> ∅))
         (set_mode MULTI_OPEN_MODE init_state))
      (mk_file (Kmem 0)) = Returns (s', 0) /\
    deref s' (Kmem 1) = Returns empty_queue.
Proof.
  destruct (multi_release_frees_own_block
              (set_kheap (<[0%nat := empty_queue]> (<[1%nat := empty_queue]> ∅))
                 (set_mode MULTI_OPEN_MODE init_state))
              0%nat 1%nat empty_queue empty_queue)
    as (s' & Hr & _ & Hb & _).
  - reflexivity.
  - lia.
  - reflexivity.
  - reflexivity.
  - exists s'. split; [exact Hr|exact Hb].
Defined.

(** ** Loading and unloading the module *)

(** X12: [queue_init] returns 0 exactly when [register_chrdev] returned no
    negative value, [class_create] no error pointer and [device_create] no
    null pointer.  Otherwise it returns a negative value, the one the
    failing call reported (-ENOMEM for the device), after undoing what it
    had registered: nothing stays registered and the driver's globals are
    untouched. *)
Theorem queue_init_all_or_nothing rc cc dc m :
  registered m =
    {| chrdev := false; class_made := false; device_made := false |} ->
  (forall e, cc = KErr e -> 1 <= e <= 4095) ->
  let '(m', r) := queue_init rc cc dc m in
  (r = 0 <-> 0 <= rc /\ IS_ERR cc = false /\ dc <> KNull) /\
  (r <> 0 ->
   r < 0 /\ registered m' = registered m /\ globals m' = globals m) /\
  (rc < 0 -> r = rc) /\
  (0 <= rc -> forall e, cc = KErr e -> r = - e) /\
  (0 <= rc -> IS_ERR cc = false -> dc = KNull -> r = - ENOMEM).
Proof.
  intros Hreg Hcc. unfold queue_init. rewrite Hreg. simpl.
  destruct (Z.ltb_spec rc 0) as [Hneg|Hpos].
  - simpl. repeat split; try (intros; lia); intuition lia.
  - destruct cc as [|e|]; simpl.
    + destruct dc; simpl; unfold ENOMEM;
        repeat split; try (intros; lia); try discriminate;
        intuition (congruence || lia).
    + specialize (Hcc e eq_refl). rewrite to_int_id by lia.
      repeat split; try (intros; lia); try discriminate;
        intuition (congruence || lia).
    + destruct dc; simpl; unfold ENOMEM;
        repeat split; try (intros; lia); try discriminate;
        intuition (congruence || lia).
Qed.

Lemma queue_init_all_or_nothing_witness :
  (queue_init 240 (KErr 12) KObj (loaded empty_queue)).2 = - 12 /\
  registered (queue_init 240 (KErr 12) KObj (loaded empty_queue)).1 =
    registered (loaded empty_queue).
Proof.
  assert (Hcc : forall e, KErr 12 = KErr e -> 1 <= e <= 4095).
  { intros e [= <-]. lia. }
  pose proof (queue_init_all_or_nothing 240 (KErr 12) KObj (loaded empty_queue)
                eq_refl Hcc) as H.
  destruct (queue_init 240 (KErr 12) KObj (loaded empty_queue)) as [m' r].
  destruct H as (_ & Hfail & _ & He & _).
  pose proof (He ltac:(lia) 12 eq_refl) as Hr.
  split; [exact Hr|]. apply Hfail. simpl. lia.
Defined.

(** X13: loaded into a kernel that grants all three registrations,
    [queue_init] returns 0 and leaves the driver in the default mode with
    the lock free, no per-handle queue and an empty shared queue, whatever
    the storage of [default_queue] held; [queue_exit] then gives back
    everything [queue_init] registered and leaves the globals alone. *)
Theorem module_load_unload rc q :
  0 <= rc ->
  let '(m', r) := queue_init rc KObj KObj (loaded q) in
  r = 0 /\
  major m' = rc /\
  registered m' =
    {| chrdev := true; class_made := true; device_made := true |} /\
  globals m' = init_state /\
  registered (queue_exit m') = registered (loaded q) /\
  globals (queue_exit m') = init_state.
Proof.
  intros Hrc. unfold queue_init.
  destruct (Z.ltb_spec rc 0) as [Hneg|_]; [lia|].
  simpl. repeat split.
Qed.

Lemma module_load_unload_witness :
  globals (queue_init 240 KObj KObj
             (loaded {| queue := [x61]; data_size := 7 |})).1 = init_state.
Proof.
  pose proof (module_load_unload 240 {| queue := [x61]; data_size := 7 |}
                ltac:(lia)) as H.
  simpl in H. destruct H as (_ & _ & _ & Hg & _). exact Hg.
Defined.

(** ** Capacity over time *)

(** X14: what a read takes out, a write can put back.  On a queue that
    satisfies its invariant, after [n] bytes have been read, a write of
    bytes [l] succeeds as soon as [l] fits in the room left plus [n], also
    when the queue was full before the read; the queue is then what the
    read left followed by [l]. *)
Theorem read_makes_room n (l : list byte) s f q :
  deref s (private_data f) = Returns q ->
  queue_ok q ->
  0 <= n <= data_size q ->
  data_size q - n + Z.of_nat (length l) <= QUEUE_SIZE ->
  exists s1 s2,
    device_read always n s f = Returns (s1, n, take (Z.to_nat n) (queue q)) /\
    write_bytes l s1 f = Returns (s2, Z.of_nat (length l)) /\
    deref s2 (private_data f) =
      Returns {| queue := drop (Z.to_nat n) (queue q) ++ l;
                 data_size := data_size q - n + Z.of_nat (length l) |}.
Proof.
  intros Hq Hok Hn Hfit. pose proof Hok as [Hlen Hcap].
  pose proof (queue_read_min always n q Hok ltac:(lia) (fun _ _ => eq_refl))
    as Hr.
  cbv zeta in Hr. rewrite Z.min_l in Hr by lia.
  rewrite Z2Nat.id in Hr by lia.
  set (q1 := {| queue := drop (Z.to_nat n) (queue q);
                data_size := data_size q - n |}) in *.
  assert (Hq1 : deref (store s (private_data f) q1) (private_data f) =
                Returns q1) by apply deref_store.
  exists (store s (private_data f) q1). eexists.
  split; [exact (device_read_deref _ _ _ _ _ _ _ _ Hq Hr)|].
  unfold write_bytes. rewrite (device_write_deref _ _ _ _ _ _ Hq1).
  rewrite queue_write_all by (simpl; lia). simpl.
  split; [reflexivity|]. apply deref_store.
Qed.

Lemma read_makes_room_witness :
  exists s1 s2,
    device_read always 1
      (store init_state DefaultQueue
         {| queue := repeat x00 1000; data_size := 1000 |})
      (mk_file DefaultQueue) = Returns (s1, 1, [x00]) /\
    write_bytes [x61] s1 (mk_file DefaultQueue) = Returns (s2, 1).
Proof.
  destruct (read_makes_room 1 [x61]
              (store init_state DefaultQueue
                 {| queue := repeat x00 1000; data_size := 1000 |})
              (mk_file DefaultQueue)
              {| queue := repeat x00 1000; data_size := 1000 |})
    as (s1 & s2 & Hr & Hw & _).
  - reflexivity.
  - split; simpl; unfold QUEUE_SIZE; lia.
  - simpl. lia.
  - simpl. unfold QUEUE_SIZE. lia.
  - exists s1, s2. split; [exact Hr|exact Hw].
Defined.

(** ** A whole session on the shared queue *)

(** X15: in the default mode, and in single-open mode with the lock free,
    with the shared queue empty: a session that opens the device, writes
    bytes that fit, reads them all back and closes gets its own bytes back
    in order and leaves the kernel state exactly as it found it, the lock
    free again. *)
Theorem shared_session_round_trip (l : list byte) s :
  device_mode s = DEFAULT_MODE \/
    device_mode s = SINGLE_OPEN_MODE /\ single_open_lock s = false ->
  default_queue s = empty_queue ->
  Z.of_nat (length l) <= QUEUE_SIZE ->
  exists f s1 s2 s3,
    device_open true s = (s1, 0, Some f) /\
    write_bytes l s1 f = Returns (s2, Z.of_nat (length l)) /\
    device_read always (Z.of_nat (length l)) s2 f =
      Returns (s3, Z.of_nat (length l), l) /\
    device_release s3 f = Returns (s, 0).
Proof.
  intros Hmode Hempty Hfit.
  set (f := mk_file DefaultQueue).
  set (q1 := {| queue := l; data_size := Z.of_nat (length l) |}).
  assert (Hok1 : queue_ok q1) by (split; simpl; lia).
  assert (Hopen : exists s1,
    device_open true s = (s1, 0, Some f) /\
    device_mode s1 = device_mode s /\
    default_queue s1 = empty_queue /\
    kheap s1 = kheap s /\
    single_open_lock s1 =
      (if device_mode s =? SINGLE_OPEN_MODE then true else single_open_lock s)).
  { destruct Hmode as [Hm|[Hm Hl]].
    - exists s. unfold device_open. rewrite Hm. simpl. rewrite Hm. simpl. auto.
    - exists (set_lock true s). rewrite (device_open_single true s Hm), Hl.
      rewrite Hm. simpl. auto. }
  destruct Hopen as (s1 & Ho & Hm1 & Hq1 & Hh1 & Hl1).
  assert (Hd1 : deref s1 (private_data f) = Returns empty_queue).
  { simpl. by rewrite Hq1. }
  set (s2 := store s1 DefaultQueue q1).
  assert (Hw : write_bytes l s1 f = Returns (s2, Z.of_nat (length l))).
  { unfold write_bytes. rewrite (device_write_deref _ _ _ _ _ _ Hd1).
    rewrite queue_write_all by (simpl; lia). reflexivity. }
  pose proof (queue_read_min always (Z.of_nat (length l)) q1 Hok1 ltac:(lia)
                (fun _ _ => eq_refl)) as Hr.
  cbv zeta in Hr. simpl data_size in Hr. rewrite Z.min_id, Nat2Z.id in Hr.
  simpl queue in Hr. rewrite take_ge, drop_ge, Z.sub_diag in Hr by lia.
  pose proof (device_read_deref always _ s2 f q1 _ _ _ (deref_store _ _ _) Hr)
    as Hrd.
  exists f, s1, s2. eexists. split; [exact Ho|]. split; [exact Hw|].
  split; [exact Hrd|].
  unfold device_release, mutex_unlock. simpl.
  destruct s as [m lk dq h]. simpl in *. subst dq.
  destruct Hmode as [Hm|[Hm Hl]]; subst m; simpl in *.
  - rewrite Hm1, Hl1, Hh1. reflexivity.
  - rewrite Hm1, Hl1. simpl. rewrite Hh1, Hl. reflexivity.
Qed.

Lemma shared_session_round_trip_witness :
  exists f s1 s2 s3,
    device_open true (set_mode SINGLE_OPEN_MODE init_state) =
      (s1, 0, Some f) /\
    write_bytes [x61; x62] s1 f = Returns (s2, 2) /\
    device_read always 2 s2 f = Returns (s3, 2, [x61; x62]) /\
    device_release s3 f = Returns (set_mode SINGLE_OPEN_MODE init_state, 0).
Proof.
  apply (shared_session_round_trip [x61; x62]
           (set_mode SINGLE_OPEN_MODE init_state)).
  - right. split; reflexivity.
  - reflexivity.
  - simpl. unfold QUEUE_SIZE. lia.
Defined.
